(** * The TeX parser stack of MathJax (input/tex/Stack.ts)

    A shallow embedding of the [Stack] class: the JavaScript heap is an
    explicit store of stack items and of environment records, object
    references are locations in that store, and every method of the class is
    a function on a machine state made of the heap and of the Stack object's
    own fields. *)

From Stdlib Require Import ZArith.
From stdpp Require Import gmap strings list fin_maps.

Local Open Scope string_scope.
Local Open Scope list_scope.

(** ** Values and references *)

(** Object references.  Two objects are the same object exactly when their
    locations are equal. *)
Definition loc := positive.

(** An MmlNode is opaque to the stack: only its identity matters. *)
Inductive MmlNode := Node (id : nat).

(** Values held by an environment record.  None of them is a function:
    calling one is a [TypeError]. *)
Inductive Value :=
| VNum (z : Z)
| VBool (b : bool)
| VStr (s : string)
| VNode (n : MmlNode).

(** [EnvList]: the own enumerable properties of a record. *)
Abbreviation EnvList := (gmap string Value).

(** What a call can throw. [TypeError] is the runtime error of a property
    access on [undefined] or [null] and of a call of a value that is not a
    function; [TexError id] is the structured parse error that item variants
    raise from their merge checks; [UnknownItemKind] is the failure of the
    factory on a kind that has no builder. *)
Inductive Exn :=
| TypeError
| TexError (id : string)
| UnknownItemKind.

(** ** Stack items *)

Module StackItem.

(** The fields of a stack item that the Stack reads or writes. [env] and
    [global] hold references ([None] is [undefined]); [data] is the array
    of accumulated nodes. *)
Record t := mk {
  kind : string;
  isOpen : bool;
  env : option loc;
  global : option loc;
  data : list MmlNode
}.

Definition set_env (e : option loc) (it : t) : t :=
  mk (kind it) (isOpen it) e (global it) (data it).

Definition set_global (g : option loc) (it : t) : t :=
  mk (kind it) (isOpen it) (env it) g (data it).

Definition set_data (d : list MmlNode) (it : t) : t :=
  mk (kind it) (isOpen it) (env it) (global it) d.

(** Modelled from the spec: the item's "last child" accessor [Last]
    (StackItem.ts is not part of the sources). *)
Definition Last (it : t) : option MmlNode := last (data it).

(** Modelled from the spec: the item's own [Pop], which removes and
    returns the most recently accumulated child node (StackItem.ts is not
    part of the sources). *)
Definition Pop (it : t) : option MmlNode * t :=
  (last (data it), set_data (removelast (data it)) it).

End StackItem.

(** ** The heap *)

Record Heap := mkHeap {
  items : gmap loc StackItem.t;
  envs : gmap loc EnvList
}.

Definition with_items (f : gmap loc StackItem.t → gmap loc StackItem.t)
    (h : Heap) : Heap :=
  mkHeap (f (items h)) (envs h).

Definition with_envs (f : gmap loc EnvList → gmap loc EnvList)
    (h : Heap) : Heap :=
  mkHeap (items h) (f (envs h)).

(** [item.env], [item.global], [item.isOpen] read through a reference. *)
Definition item_env (h : Heap) (r : loc) : option loc :=
  it ← items h !! r; StackItem.env it.

Definition item_global (h : Heap) (r : loc) : option loc :=
  it ← items h !! r; StackItem.global it.

Definition item_isOpen (h : Heap) (r : loc) : bool :=
  match items h !! r with
  | Some it => StackItem.isOpen it
  | None => false
  end.

Definition item_data (h : Heap) (r : loc) : list MmlNode :=
  match items h !! r with
  | Some it => StackItem.data it
  | None => []
  end.

(** [item.env = e], [delete item.env], [item.global = g]. *)
Definition write_env (r : loc) (e : option loc) (h : Heap) : Heap :=
  with_items (alter (StackItem.set_env e) r) h.

Definition write_global (r : loc) (g : loc) (h : Heap) : Heap :=
  with_items (alter (StackItem.set_global (Some g)) r) h.

(** The contents of the record behind a reference. *)
Definition record (h : Heap) (e : loc) : EnvList :=
  default ∅ (envs h !! e).

(** [{...}]: a new record. *)
Definition new_record (m : EnvList) (h : Heap) : loc * Heap :=
  let l := fresh (dom (envs h)) in
  (l, with_envs (insert l m) h).

(** ** The item factory *)

(** Modelled from the spec: [StackItemFactory.create] (StackItemFactory.ts
    and the item classes are not part of the sources).  The factory maps a
    kind to a builder, or to none when the kind is not registered.  A builder
    decides the initial fields of the new item from the arguments of
    [create]; creation has no other effect than the allocation of the item
    and, when the builder sets one, of its own environment record. *)
Record ItemInit := mkInit {
  init_kind : string;
  init_isOpen : bool;
  init_env : option EnvList;
  init_global : option loc;
  init_data : list MmlNode
}.

Record StackItemFactory := mkFactory {
  start_builder : option (loc → ItemInit);     (* the builder of 'start' *)
  mml_builder : option (MmlNode → ItemInit)    (* the builder of 'mml' *)
}.

Definition new_item (i : ItemInit) (h : Heap) : loc * Heap :=
  let (e, h1) :=
    match init_env i with
    | Some m => let (l, h') := new_record m h in (Some l, h')
    | None => (None, h)
    end in
  let r := fresh (dom (items h1)) in
  (r, with_items (insert r
        (StackItem.mk (init_kind i) (init_isOpen i) e (init_global i)
                      (init_data i))) h1).

(** ** Outcomes of a call *)

Inductive Outcome (A : Type) :=
| Ok (a : A)
| Throw (e : Exn)
| OutOfFuel.
Arguments Ok {A} a.
Arguments Throw {A} e.
Arguments OutOfFuel {A}.

#[global] Instance Outcome_ret : MRet Outcome := fun A a => Ok a.

#[global] Instance Outcome_bind : MBind Outcome := fun A B k o =>
  match o with
  | Ok a => k a
  | Throw e => Throw e
  | OutOfFuel => OutOfFuel
  end.

(** Modelled from the spec: [create(kind, arg)] looks the kind up, fails
    with [UnknownItemKind] when no builder is registered, and otherwise
    returns the new item that the builder makes of the argument. *)
Definition create {A} (builder : option (A → ItemInit)) (arg : A) (h : Heap)
    : Outcome (loc * Heap) :=
  match builder with
  | Some build => Ok (new_item (build arg) h)
  | None => Throw UnknownItemKind
  end.

(** ** The Stack object *)

(** The fields of the class: [global], the array [stack] (the top is the
    last element) and [_env], the current environment behind the [env]
    accessors. *)
Record Stack := mkStack {
  global : loc;
  stack : list loc;
  _env : option loc
}.

Record Machine := mkMachine {
  heap : Heap;
  stk : Stack
}.

Definition set_heap (h : Heap) (m : Machine) : Machine :=
  mkMachine h (stk m).

(** What is pushed: [null]/[undefined], a raw node, or a stack item. *)
Inductive Arg :=
| ANull
| ANode (n : MmlNode)
| AItem (r : loc).

(** The answer of a merge check, by the tests [Push] runs on it:
    [instanceof Array], [instanceof BaseItem], truthy, falsy. *)
Inductive CheckResult :=
| RArray (l : list Arg)
| RItem (r : loc)
| RTrue
| RFalse.

(** [array.pop()]: the last element, [undefined] on an empty array. *)
Definition array_pop {A} (l : list A) : option A * list A :=
  (last l, removelast l).

Section StackClass.

(** The item variants are supplied from outside: [checkItem this item]
    runs on the heap, may change it, and may throw. *)
Variable checkItem : loc → loc → Heap → Outcome (CheckResult * Heap).
Variable _factory : StackItemFactory.

(** [Top(n)]: [n == null] selects the default 1.  For [n <= 0] the index
    [length - n] is past the end and the array read is [undefined]. *)
Definition Top_of (s : Stack) (n : option Z) : option loc :=
  let n := default 1%Z n in
  let len := Z.of_nat (length (stack s)) in
  if (len <? n)%Z then None
  else stack s !! Z.to_nat (len - n).

Definition Top (n : option Z) (m : Machine) : Outcome (option loc * Machine) :=
  Ok (Top_of (stk m) n, m).

(** [Pop()] *)
Definition Pop (m : Machine) : Outcome (loc * Machine) :=
  let s := stk m in
  let (popped, rest) := array_pop (stack s) in
  match popped with
  | None => Throw TypeError              (* item.isOpen on undefined *)
  | Some item =>
      let h1 := if item_isOpen (heap m) item then heap m
                else write_env item None (heap m) in
      let s1 := mkStack (global s) rest (_env s) in
      match rest with
      | [] =>
          let (e, h2) := new_record ∅ h1 in
          Ok (item, mkMachine h2 (mkStack (global s) rest (Some e)))
      | _ =>
          let e := t ← Top_of s1 None; item_env h1 t in
          Ok (item, mkMachine h1 (mkStack (global s) rest e))
      end
  end.

(** [tgt[id] = v] on a record.  The key [__proto__] is an own key only
    where the record already has it as one: otherwise the assignment goes to
    the accessor that every record inherits, and adds no own key. *)
Definition assign (id : string) (v : Value) (tgt : EnvList) : EnvList :=
  if decide (id = "__proto__" ∧ tgt !! "__proto__" = None) then tgt
  else <[id := v]> tgt.

(** The overlay loop of [Push].  The test [this.env.hasOwnProperty(id)] is
    a call of the property [hasOwnProperty] of the current record itself:
    where the record has an own key of that name the value is not a function
    and the first iteration throws; otherwise the inherited method answers
    [true] for every key of the loop, and each is assigned into the item's
    record. *)
Definition overlay (cur own : EnvList) : Outcome EnvList :=
  if decide (is_Some (cur !! "hasOwnProperty")) then Throw TypeError
  else Ok (map_fold assign own cur).

Definition overlay_into (cur ienv : loc) (h : Heap) : Outcome Heap :=
  merged ← overlay (record h cur) (record h ienv);
  Ok (with_envs (insert ienv merged) h).

(** The first half of an iteration of [Push]: wrap a node, assign
    [item.global]. [None] is the [continue] of a null argument. *)
Definition prepare (s : Stack) (node : Arg) (h : Heap)
    : Outcome (option (loc * Heap)) :=
  match node with
  | ANull => Ok None
  | ANode n =>
      '(item, h1) ← create (mml_builder _factory) n h;
      Ok (Some (item, write_global item (global s) h1))
  | AItem item => Ok (Some (item, write_global item (global s) h))
  end.

(** [this.stack.length ? this.Top().checkItem(item) : true] *)
Definition check_top (s : Stack) (item : loc) (h : Heap)
    : Outcome (CheckResult * Heap) :=
  match stack s with
  | [] => Ok (RTrue, h)
  | _ =>
      match Top_of s None with
      | Some t => checkItem t item h
      | None => Throw TypeError
      end
  end.

(** The accepting branch: [this.stack.push(item)] and the environment
    threading.  The loop over an [undefined] current environment has no
    iteration. *)
Definition accept (item : loc) (m : Machine) : Outcome Machine :=
  let s := stk m in
  let h := heap m in
  let pushed := stack s ++ [item] in
  match item_env h item with
  | Some ienv =>
      h1 ← match _env s with
           | Some cur => overlay_into cur ienv h
           | None => Ok h
           end;
      Ok (mkMachine h1 (mkStack (global s) pushed (Some ienv)))
  | None =>
      Ok (mkMachine (write_env item (_env s) h)
            (mkStack (global s) pushed (_env s)))
  end.

(** [Push(...args)]. The fuel bounds the depth of the recursive calls;
    the loop over the arguments is the inner fixpoint. *)
Fixpoint Push (fuel : nat) (args : list Arg) (m : Machine) : Outcome Machine :=
  match fuel with
  | O => OutOfFuel
  | S fuel' =>
      (fix loop (args : list Arg) (m : Machine) : Outcome Machine :=
         match args with
         | [] => Ok m
         | node :: rest =>
             prepared ← prepare (stk m) node (heap m);
             match prepared with
             | None => loop rest m
             | Some (item, h1) =>
                 '(top, h2) ← check_top (stk m) item h1;
                 let m2 := mkMachine h2 (stk m) in
                 match top with
                 | RArray l =>
                     '(_, m3) ← Pop m2;
                     m4 ← Push fuel' l m3;
                     loop rest m4
                 | RItem r =>
                     '(_, m3) ← Pop m2;
                     m4 ← Push fuel' [AItem r] m3;
                     loop rest m4
                 | RTrue => m3 ← accept item m2; loop rest m3
                 | RFalse => loop rest m2
                 end
             end
         end) args m
  end.

(** [Prev(noPop)] *)
Definition Prev (noPop : bool) (m : Machine)
    : Outcome (option MmlNode * Machine) :=
  match Top_of (stk m) None with
  | None => Throw TypeError               (* top.Last / top.Pop on null *)
  | Some top =>
      match items (heap m) !! top with
      | None => Throw TypeError
      | Some it =>
          if noPop then Ok (StackItem.Last it, m)
          else
            let (n, it') := StackItem.Pop it in
            Ok (n, set_heap (with_items (insert top it') (heap m)) m)
      end
  end.

(** [new Stack(factory, env, inner)] on a given heap. The field
    initialisers [global = {}] and [stack = []] are overwritten by the
    first two statements of the body. *)
Definition constructor (env : option loc) (inner : bool) (h : Heap)
    : Outcome Machine :=
  let (g, h1) := new_record {[ "isInner" := VBool inner ]} h in
  '(start, h2) ← create (start_builder _factory) g h1;
  let h3 := match env with
            | Some e => write_env start (Some e) h2
            | None => h2
            end in
  Ok (mkMachine h3 (mkStack g [start] (item_env h3 start))).

End StackClass.

(** ** Well-formed states and the invariants of the class *)

(** A reference is live when an item sits behind it. *)
Definition live (h : Heap) (r : loc) : Prop := is_Some (items h !! r).

Definition arg_live (h : Heap) (a : Arg) : Prop :=
  match a with
  | AItem r => live h r
  | _ => True
  end.

Definition result_live (h : Heap) (r : CheckResult) : Prop :=
  match r with
  | RArray l => Forall (arg_live h) l
  | RItem x => live h x
  | _ => True
  end.

(** The heap [h'] keeps every item of [h], with the same [env] and [global]
    references (children and record contents may differ, new objects may
    exist). *)
Definition links_kept (h h' : Heap) : Prop :=
  ∀ l it, items h !! l = Some it →
    ∃ it', items h' !! l = Some it'
           ∧ StackItem.env it' = StackItem.env it
           ∧ StackItem.global it' = StackItem.global it.

(** What the stack expects of the item variants: a merge check does not
    reassign the [env] or [global] field of an existing item, and the
    replacements it returns are objects. *)
Definition CheckSound
    (checkItem : loc → loc → Heap → Outcome (CheckResult * Heap)) : Prop :=
  ∀ t i h r h', checkItem t i h = Ok (r, h') →
    links_kept h h' ∧ result_live h' r.

(** Every entry of the stack array is an object. *)
Definition wf (m : Machine) : Prop :=
  Forall (live (heap m)) (stack (stk m)).

(** The current environment is the top item's [env], or an empty record
    when the stack is empty. *)
Definition env_inv (m : Machine) : Prop :=
  match last (stack (stk m)) with
  | Some t => _env (stk m) = item_env (heap m) t
  | None => ∃ e, _env (stk m) = Some e ∧ envs (heap m) !! e = Some ∅
  end.

(** Every item on the stack refers to the Stack's own global record. *)
Definition global_inv (m : Machine) : Prop :=
  Forall (fun r => item_global (heap m) r = Some (global (stk m)))
         (stack (stk m)).

(** Every object of [h] is still an object of [h']. *)
Definition heap_ext (h h' : Heap) : Prop := ∀ l, live h l → live h' l.

(** The heap after the [delete item.env] that Pop runs on a closed item. *)
Definition popped_heap (h : Heap) (item : loc) : Heap :=
  if item_isOpen h item then h else write_env item None h.

(** The keys of the current record that the overlay copies into a record
    whose own keys are [own]: all of them, but for [__proto__] where [own]
    does not have it. *)
Definition copied (cur own : EnvList) : EnvList :=
  if decide (own !! "__proto__" = None) then delete "__proto__" cur else cur.

(** The record the current environment refers to. *)
Definition current_record (m : Machine) : option EnvList :=
  e ← _env (stk m); envs (heap m) !! e.

(** ** Runs of the stack *)

Section Runs.

Variable checkItem : loc → loc → Heap → Outcome (CheckResult * Heap).
Variable _factory : StackItemFactory.

(** [Push(item)] when the merge check plainly accepts and the push
    completes: the state it leads to, [None] when the check answers anything
    but [true] or the overlay throws. *)
Definition push_accepted (m : Machine) (item : loc) : option Machine :=
  match check_top checkItem (stk m) item
          (write_global item (global (stk m)) (heap m)) with
  | Ok (RTrue, h2) =>
      match accept item (mkMachine h2 (stk m)) with
      | Ok m' => Some m'
      | _ => None
      end
  | _ => None
  end.

(** A sequence of pushes that are all plainly accepted. *)
Fixpoint run_accepted (its : list loc) (m : Machine) : option Machine :=
  match its with
  | [] => Some m
  | i :: rest => m1 ← push_accepted m i; run_accepted rest m1
  end.

(** [Push(i1); ...; Push(ik)] *)
Fixpoint PushEach (fuel : nat) (its : list loc) (m : Machine)
    : Outcome Machine :=
  match its with
  | [] => Ok m
  | i :: rest =>
      m1 ← Push checkItem _factory fuel [AItem i] m; PushEach fuel rest m1
  end.

(** [Pop()] called [k] times *)
Fixpoint PopN (k : nat) (m : Machine) : Outcome Machine :=
  match k with
  | O => Ok m
  | S k' => '(_, m1) ← Pop m; PopN k' m1
  end.

(** The state [Pop()] leaves (the state itself when Pop throws). *)
Definition after_Pop (m : Machine) : Machine :=
  match Pop m with
  | Ok (_, m') => m'
  | _ => m
  end.

End Runs.

(** ** A sample variant set

    The properties below hold for any [checkItem].  To run the stack on
    concrete inputs, this module fixes a few item variants, in the way item
    classes answer a merge check: an item absorbs a pushed 'mml' item into
    its children and answers [false]; an 'open' item answers a 'close' item
    with the single 'mml' item made of its children; an 'over' item answers
    a 'close' item with the list of that 'mml' item and the 'close' item
    itself; a 'begin' item answers a 'row' item with the list of the row and
    a new open 'cell'; a 'close' item on any other item is a parse error;
    everything else is accepted. *)
Module Sample.

Definition mml_of (it : StackItem.t) : ItemInit :=
  mkInit "mml" false None None (StackItem.data it).

Definition cell : ItemInit := mkInit "cell" true (Some ∅) None [].

Definition checkItem (this item : loc) (h : Heap)
    : Outcome (CheckResult * Heap) :=
  match items h !! this, items h !! item with
  | Some t, Some i =>
      if decide (StackItem.kind i = "mml") then
        Ok (RFalse,
            with_items (insert this
              (StackItem.set_data (StackItem.data t ++ StackItem.data i) t)) h)
      else if decide (StackItem.kind i = "close") then
        if decide (StackItem.kind t = "open") then
          let (r, h1) := new_item (mml_of t) h in Ok (RItem r, h1)
        else if decide (StackItem.kind t = "over") then
          let (r, h1) := new_item (mml_of t) h in
          Ok (RArray [AItem r; AItem item], h1)
        else Throw (TexError "ExtraCloseMissingOpen")
      else if decide (StackItem.kind t = "begin" ∧ StackItem.kind i = "row") then
        let (r, h1) := new_item cell h in
        Ok (RArray [AItem item; AItem r], h1)
      else Ok (RTrue, h)
  | _, _ => Throw TypeError
  end.

Definition factory : StackItemFactory :=
  mkFactory (Some (fun g => mkInit "start" true (Some ∅) (Some g) []))
            (Some (fun n => mkInit "mml" false None None [n])).

(** [new C(...)] for an item of the given kind, openness and own record. *)
Definition item (kind : string) (isOpen : bool) (env : option EnvList)
    (h : Heap) : loc * Heap :=
  new_item (mkInit kind isOpen env None []) h.

Definition empty_heap : Heap := mkHeap ∅ ∅.

End Sample.

(** ** Concrete states *)

Module Scenario.

Definition run (o : Outcome Machine) (dflt : Machine) : Machine :=
  match o with
  | Ok m => m
  | _ => dflt
  end.

Definition no_stack : Machine :=
  mkMachine Sample.empty_heap (mkStack 1%positive [] None).

(** The record [{a: 0, b: 2}], and a Stack constructed on it. *)
Definition rec_ab : loc * Heap :=
  new_record {[ "a" := VNum 0; "b" := VNum 2 ]} Sample.empty_heap.

Definition constructed : Machine :=
  run (constructor Sample.factory (Some rec_ab.1) false rec_ab.2) no_stack.

(** An open item built with its own record [{a: 1}]. *)
Definition own_a : loc * Heap :=
  Sample.item "open" true (Some {[ "a" := VNum 1 ]}) (heap constructed).

Definition before_push : Machine := mkMachine own_a.2 (stk constructed).

(** The items of a parse, made before the Stack is constructed: an
    'open' group, an 'over' item, a 'close' item, a 'begin' item, a 'row'
    item, a closed 'leaf' item with its own record and an 'mml' item
    without children. *)
Definition parts : Heap :=
  let (_, h1) := Sample.item "open" true (Some ∅) Sample.empty_heap in
  let (_, h2) := Sample.item "over" true None h1 in
  let (_, h3) := Sample.item "close" false None h2 in
  let (_, h4) := Sample.item "begin" true None h3 in
  let (_, h5) := Sample.item "row" true None h4 in
  let (_, h6) := Sample.item "leaf" false (Some {[ "x" := VNum 1 ]}) h5 in
  let (_, h7) := Sample.item "mml" false None h6 in
  h7.

Definition i_open : loc := 1%positive.
Definition i_over : loc := 2%positive.
Definition i_close : loc := 3%positive.
Definition i_begin : loc := 4%positive.
Definition i_row : loc := 5%positive.
Definition i_leaf : loc := 6%positive.
Definition i_blank : loc := 7%positive.
Definition i_start : loc := 8%positive.

(** [new Stack(factory, undefined, false)] *)
Definition fresh_stack : Machine :=
  run (constructor Sample.factory None false parts) no_stack.

Definition push (fuel : nat) (args : list Arg) (m : Machine) : Machine :=
  run (Push Sample.checkItem Sample.factory fuel args m) m.

(** The stack [start, open, over] and the stack [start, begin]. *)
Definition in_fraction : Machine :=
  push 1 [AItem i_open; AItem i_over] fresh_stack.

Definition in_array : Machine := push 1 [AItem i_begin] fresh_stack.

(** The stack [start, leaf]. *)
Definition with_leaf : Machine := push 1 [AItem i_leaf] fresh_stack.

(** The Stack after its only item has been popped. *)
Definition emptied : Machine := after_Pop fresh_stack.

(** The raw node 7 wrapped for a push on the new Stack, and the heap in
    which the wrapper has its [global]. *)
Definition wrapped : loc * Heap :=
  match prepare Sample.factory (stk fresh_stack) (ANode (Node 7))
          (heap fresh_stack) with
  | Ok (Some p) => p
  | _ => (i_start, heap fresh_stack)
  end.

(** The childless 'mml' item prepared for a push on the new Stack; the
    'row' item prepared for a push on [start, begin], and the answer of the
    'begin' item. *)
Definition blank_prepared : Heap :=
  write_global i_blank (global (stk fresh_stack)) (heap fresh_stack).

Definition row_prepared : Heap :=
  write_global i_row (global (stk in_array)) (heap in_array).

Definition row_answer : Heap :=
  match Sample.checkItem i_begin i_row row_prepared with
  | Ok (_, h) => h
  | _ => row_prepared
  end.

Definition i_cell : loc := 9%positive.

Definition accepted (m : Machine) (item : loc) : Machine :=
  default m (push_accepted Sample.checkItem m item).

End Scenario.

(** ** The [env] accessors and the arguments of Push *)

(** [get env()] and [set env(env)] of the class. *)
Definition get_env (m : Machine) : option loc := _env (stk m).

Definition set_env (e : option loc) (m : Machine) : Machine :=
  mkMachine (heap m) (mkStack (global (stk m)) (stack (stk m)) e).

(** [!node] *)
Definition is_null (a : Arg) : bool :=
  match a with
  | ANull => true
  | _ => false
  end.

(** The arguments that the loop of Push does not skip. *)
Definition non_null (args : list Arg) : list Arg :=
  List.filter (fun a => negb (is_null a)) args.

(** A merge check answers plainly when it returns [true] or [false]:
    it neither throws nor asks for a replacement. *)
Definition answers_plainly
    (checkItem : loc → loc → Heap → Outcome (CheckResult * Heap)) : Prop :=
  ∀ t i h, ∃ h', checkItem t i h = Ok (RTrue, h')
                 ∨ checkItem t i h = Ok (RFalse, h').

(** A second variant set for concrete runs: an open candidate is accepted,
    a closed one is dropped. *)
Module Plain.

Definition checkItem (this item : loc) (h : Heap)
    : Outcome (CheckResult * Heap) :=
  if item_isOpen h item then Ok (RTrue, h) else Ok (RFalse, h).

End Plain.

(** A third variant set for concrete runs: a 'close' candidate makes the
    top item withdraw with nothing in its place, every other candidate is
    accepted. *)
Module Closing.

Definition checkItem (this item : loc) (h : Heap)
    : Outcome (CheckResult * Heap) :=
  match items h !! item with
  | Some i =>
      if decide (StackItem.kind i = "close") then Ok (RArray [], h)
      else Ok (RTrue, h)
  | None => Throw TypeError
  end.

End Closing.

(** ** More concrete states *)

Module Cases.

(** The stack [open], reached from the emptied Stack. *)
Definition only_open : Machine :=
  Scenario.push 1 [AItem Scenario.i_open] Scenario.emptied.

(** The 'close' item prepared for a push on [open], and the answer of
    the 'open' item. *)
Definition close_prepared : Heap :=
  write_global Scenario.i_close (global (stk only_open)) (heap only_open).

Definition close_answer : Heap :=
  match Sample.checkItem Scenario.i_open Scenario.i_close close_prepared with
  | Ok (_, h) => h
  | _ => close_prepared
  end.

Definition i_mml : loc := 9%positive.

(** The 'begin' item prepared for a push on the new Stack. *)
Definition begin_prepared : Heap :=
  write_global Scenario.i_begin (global (stk Scenario.fresh_stack))
    (heap Scenario.fresh_stack).

(** The new Stack after [env] has been assigned the record of the 'leaf'
    item. *)
Definition env_assigned : Machine :=
  set_env (Some 2%positive) Scenario.fresh_stack.

Definition push_plain (fuel : nat) (args : list Arg) (m : Machine) : Machine :=
  Scenario.run (Push Plain.checkItem Sample.factory fuel args m) m.

(** The closed 'leaf' item pushed twice on the new Stack: the stack
    [start, leaf, leaf] holds one object at two positions. *)
Definition twice_leaf : Machine :=
  Scenario.push 1 [AItem Scenario.i_leaf; AItem Scenario.i_leaf]
    Scenario.fresh_stack.

(** The new Stack after node 7 has been pushed: the 'start' item absorbs
    the wrapping 'mml' item and answers [false]. *)
Definition node_absorbed : Machine :=
  Scenario.push 1 [ANode (Node 7)] Scenario.fresh_stack.

(** A Stack constructed on a record with the own key [hasOwnProperty],
    and an open item with its own record [{a: 1}] to push on it. *)
Definition rec_shadow : loc * Heap :=
  new_record {[ "hasOwnProperty" := VNum 1 ]} Sample.empty_heap.

Definition shadowed : Machine :=
  Scenario.run (constructor Sample.factory (Some rec_shadow.1) false
                  rec_shadow.2) Scenario.no_stack.

Definition shadow_item : loc * Heap :=
  Sample.item "open" true (Some {[ "a" := VNum 1 ]}) (heap shadowed).

Definition shadow_push : Machine := mkMachine shadow_item.2 (stk shadowed).

Definition shadow_prepared : Heap :=
  write_global shadow_item.1 (global (stk shadow_push)) (heap shadow_push).

End Cases.

(** * Lemmas *)

Section Lemmas.
Variable checkItem : loc → loc → Heap → Outcome (CheckResult * Heap).
Variable _factory : StackItemFactory.

Lemma Top_of_default (s : Stack) : Top_of s None = last (stack s).
Proof.
  unfold Top_of; simpl. rewrite last_lookup.
  destruct (stack s) as [|x l] eqn:E; simpl; [done|].
  destruct (Z.ltb_spec (Z.of_nat (S (length l))) 1); [lia|].
  f_equal. lia.
Qed.

Lemma Top_of_beyond (s : Stack) (n : Z) :
  (Z.of_nat (length (stack s)) < n)%Z → Top_of s (Some n) = None.
Proof.
  intros H. unfold Top_of; simpl.
  destruct (Z.ltb_spec (Z.of_nat (length (stack s))) n); [done|lia].
Qed.

Lemma bind_Ok {A B} (a : A) (f : A → Outcome B) : Ok a ≫= f = f a.
Proof. reflexivity. Qed.

Lemma Push_nil fuel m : Push checkItem _factory (S fuel) [] m = Ok m.
Proof. reflexivity. Qed.

Lemma Push_cons fuel node rest m :
  Push checkItem _factory (S fuel) (node :: rest) m =
  prepared ← prepare _factory (stk m) node (heap m);
  match prepared with
  | None => Push checkItem _factory (S fuel) rest m
  | Some (item, h1) =>
      '(top, h2) ← check_top checkItem (stk m) item h1;
      let m2 := mkMachine h2 (stk m) in
      match top with
      | RArray l =>
          '(_, m3) ← Pop m2;
          m4 ← Push checkItem _factory fuel l m3;
          Push checkItem _factory (S fuel) rest m4
      | RItem r =>
          '(_, m3) ← Pop m2;
          m4 ← Push checkItem _factory fuel [AItem r] m3;
          Push checkItem _factory (S fuel) rest m4
      | RTrue => accept item m2 ≫= Push checkItem _factory (S fuel) rest
      | RFalse => Push checkItem _factory (S fuel) rest m2
      end
  end.
Proof. reflexivity. Qed.

(** *** Liveness is monotone *)

Lemma links_kept_refl h : links_kept h h.
Proof. intros l it H; eauto. Qed.

Lemma links_kept_ext h h' : links_kept h h' → heap_ext h h'.
Proof.
  intros H l [it Hit]. destruct (H l it Hit) as (it' & Hit' & _).
  by exists it'.
Qed.

Lemma heap_ext_trans h1 h2 h3 : heap_ext h1 h2 → heap_ext h2 h3 → heap_ext h1 h3.
Proof. unfold heap_ext; eauto. Qed.

Lemma live_alter f r l h : live (with_items (alter f r) h) l ↔ live h l.
Proof.
  unfold live; simpl. rewrite lookup_alter.
  case_decide; subst; [|done]. by rewrite fmap_is_Some.
Qed.

Lemma new_record_items m h l h' :
  new_record m h = (l, h') → items h' = items h ∧ envs h !! l = None
                             ∧ envs h' = <[l := m]> (envs h).
Proof.
  unfold new_record. intros [= <- <-]. simpl. repeat split.
  apply not_elem_of_dom, is_fresh.
Qed.

Lemma new_item_spec i h r h' :
  new_item i h = (r, h') →
  items h !! r = None
  ∧ (∃ it, items h' = <[r := it]> (items h)
           ∧ StackItem.global it = init_global i
           ∧ StackItem.data it = init_data i
           ∧ StackItem.isOpen it = init_isOpen i)
  ∧ (∀ l, is_Some (envs h !! l) → envs h' !! l = envs h !! l).
Proof.
  unfold new_item.
  destruct (init_env i) as [e|].
  - destruct (new_record e h) as [l h1] eqn:E.
    apply new_record_items in E as (Hi & Hn & He).
    intros [= <- <-]. simpl. rewrite Hi. split; [|split].
    + apply not_elem_of_dom, is_fresh.
    + eexists; split; [done|]. done.
    + intros l' [x Hx]. rewrite He, lookup_insert_ne; [done|congruence].
  - intros [= <- <-]. simpl. split; [|split].
    + apply not_elem_of_dom, is_fresh.
    + eexists; split; [done|]. done.
    + done.
Qed.

(** *** Reading items after a field write *)

Lemma item_env_write_env r e h l :
  item_env (write_env r e h) l =
  if decide (r = l) then items h !! l ≫= (fun _ => e) else item_env h l.
Proof.
  unfold item_env, write_env; simpl. rewrite lookup_alter.
  case_decide; subst; [|done]. by destruct (items h !! l).
Qed.

Lemma item_env_write_global r g h l :
  item_env (write_global r g h) l = item_env h l.
Proof.
  unfold item_env, write_global; simpl. rewrite lookup_alter.
  case_decide; subst; [|done]. by destruct (items h !! l).
Qed.

Lemma item_global_write_env r e h l :
  item_global (write_env r e h) l = item_global h l.
Proof.
  unfold item_global, write_env; simpl. rewrite lookup_alter.
  case_decide; subst; [|done]. by destruct (items h !! l).
Qed.

Lemma item_global_write_global r g h l :
  item_global (write_global r g h) l =
  if decide (r = l) then items h !! l ≫= (fun _ => Some g)
  else item_global h l.
Proof.
  unfold item_global, write_global; simpl. rewrite lookup_alter.
  case_decide; subst; [|done]. by destruct (items h !! l).
Qed.

Lemma item_data_write_global r g h l :
  item_data (write_global r g h) l = item_data h l.
Proof.
  unfold item_data, write_global; simpl. rewrite lookup_alter.
  case_decide; subst; [|done]. by destruct (items h !! l).
Qed.

Lemma links_kept_item_env h h' r :
  links_kept h h' → live h r → item_env h' r = item_env h r.
Proof.
  intros H [it Hit]. destruct (H r it Hit) as (it' & Hit' & He & _).
  unfold item_env. by rewrite Hit, Hit'.
Qed.

Lemma links_kept_item_global h h' r :
  links_kept h h' → live h r → item_global h' r = item_global h r.
Proof.
  intros H [it Hit]. destruct (H r it Hit) as (it' & Hit' & _ & Hg).
  unfold item_global. by rewrite Hit, Hit'.
Qed.

(** *** Pop *)

Lemma popped_heap_envs h t : envs (popped_heap h t) = envs h.
Proof. unfold popped_heap. by destruct (item_isOpen h t). Qed.

Lemma popped_heap_live h t l : live (popped_heap h t) l ↔ live h l.
Proof.
  unfold popped_heap. destruct (item_isOpen h t); [done|].
  apply live_alter.
Qed.

Lemma popped_heap_other h t l :
  l ≠ t → items (popped_heap h t) !! l = items h !! l.
Proof.
  intros Hne. unfold popped_heap. destruct (item_isOpen h t); [done|].
  simpl. by rewrite lookup_alter_ne.
Qed.

Lemma popped_heap_global h t l :
  item_global (popped_heap h t) l = item_global h l.
Proof.
  unfold popped_heap. destruct (item_isOpen h t); [done|].
  apply item_global_write_env.
Qed.

Lemma Pop_empty m : stack (stk m) = [] → Pop m = Throw TypeError.
Proof. intros H. unfold Pop, array_pop. by rewrite H. Qed.

Lemma Pop_ok m t :
  last (stack (stk m)) = Some t →
  ∃ m', Pop m = Ok (t, m')
    ∧ stack (stk m') = removelast (stack (stk m))
    ∧ global (stk m') = global (stk m)
    ∧ items (heap m') = items (popped_heap (heap m) t)
    ∧ (∀ l, is_Some (envs (heap m) !! l) →
            envs (heap m') !! l = envs (heap m) !! l)
    ∧ env_inv m'.
Proof.
  intros Ht. unfold Pop, array_pop. rewrite Ht. fold (popped_heap (heap m) t).
  destruct (removelast (stack (stk m))) as [|x l] eqn:E.
  - destruct (new_record ∅ (popped_heap (heap m) t)) as [e h2] eqn:En.
    apply new_record_items in En as (Hi & Hn & He).
    eexists; split; [reflexivity|]. simpl. repeat split; try done.
    + intros l' [x Hx]. rewrite He, popped_heap_envs in *.
      rewrite lookup_insert_ne; [done|congruence].
    + unfold env_inv; simpl. exists e. split; [done|].
      by rewrite He, lookup_insert_eq.
  - eexists; split; [reflexivity|]. simpl. repeat split; try done.
    + intros l' _. by rewrite popped_heap_envs.
    + unfold env_inv; simpl. rewrite Top_of_default; simpl.
      destruct (last (x :: l)) eqn:El; [done|]. by apply last_None in El.
Qed.

Lemma Pop_inv m r m' : Pop m = Ok (r, m') → last (stack (stk m)) = Some r.
Proof.
  unfold Pop, array_pop. destruct (last (stack (stk m))) as [t|]; [|done].
  destruct (removelast (stack (stk m))); [destruct new_record|];
    by intros [= -> _].
Qed.

Lemma Forall_removelast {A} (P : A → Prop) (l : list A) :
  Forall P l → Forall P (removelast l).
Proof.
  induction 1 as [|x l Hx Hl IH]; simpl; [constructor|].
  destruct l; [constructor|]. by constructor.
Qed.

Lemma Pop_wf m r m' :
  wf m → Pop m = Ok (r, m') →
  wf m' ∧ heap_ext (heap m) (heap m') ∧ global (stk m') = global (stk m).
Proof.
  intros Hwf HP. pose proof (Pop_inv _ _ _ HP) as Hl.
  destruct (Pop_ok m r Hl) as (m1 & HP1 & Hs & Hg & Hi & _).
  rewrite HP in HP1. injection HP1 as <-.
  assert (heap_ext (heap m) (heap m')) as Hext.
  { intros l Hlive. unfold live. rewrite Hi. by apply popped_heap_live. }
  split; [|done]. unfold wf. rewrite Hs.
  apply Forall_removelast. eapply Forall_impl; [exact Hwf|]. apply Hext.
Qed.

(** *** The pieces of Push *)

Lemma prepare_inv s a h item h1 :
  prepare _factory s a h = Ok (Some (item, h1)) →
  (∃ n build h', a = ANode n ∧ mml_builder _factory = Some build
     ∧ new_item (build n) h = (item, h')
     ∧ h1 = write_global item (global s) h')
  ∨ (a = AItem item ∧ h1 = write_global item (global s) h).
Proof.
  destruct a as [|n|r]; simpl; [done| |].
  - unfold create. destruct (mml_builder _factory) as [b|]; [|done].
    rewrite bind_Ok. destruct (new_item (b n) h) as [r h'] eqn:E.
    intros [= <- <-]. left. by exists n, b, h'.
  - intros [= <- <-]. by right.
Qed.

Lemma prepare_spec s a h item h1 :
  prepare _factory s a h = Ok (Some (item, h1)) → arg_live h a →
  live h1 item
  ∧ item_global h1 item = Some (global s)
  ∧ (∀ r, live h r →
       live h1 r ∧ item_env h1 r = item_env h r
       ∧ item_data h1 r = item_data h r
       ∧ (r ≠ item → item_global h1 r = item_global h r))
  ∧ (∀ l, is_Some (envs h !! l) → envs h1 !! l = envs h !! l).
Proof.
  intros Hp.
  destruct (prepare_inv _ _ _ _ _ Hp)
    as [(n & b & h' & -> & _ & E & ->)|[-> ->]].
  - apply new_item_spec in E as (Hfresh & (it & Hit & _) & He).
    intros _.
    assert (∀ l, live h l → l ≠ item ∧ items h' !! l = items h !! l) as Hold.
    { intros l [x Hx]. assert (l ≠ item) by congruence.
      split; [done|]. by rewrite Hit, lookup_insert_ne. }
    split; [|split; [|split]].
    + apply live_alter. unfold live. rewrite Hit, lookup_insert_eq. by eexists.
    + rewrite item_global_write_global, decide_True by done.
      by rewrite Hit, lookup_insert_eq.
    + intros l Hl. destruct (Hold l Hl) as [Hne Heq].
      split; [apply live_alter; unfold live in *; by rewrite Heq|].
      rewrite item_env_write_global, item_data_write_global,
        item_global_write_global, decide_False by done.
      unfold item_env, item_data, item_global. by rewrite Heq.
    + done.
  - intros Hlive. split; [|split; [|split]].
    + by apply live_alter.
    + rewrite item_global_write_global, decide_True by done.
      destruct Hlive as [x ->]. done.
    + intros l Hl. split; [by apply live_alter|].
      rewrite item_env_write_global, item_data_write_global,
        item_global_write_global.
      repeat split; try done. intros Hne. by rewrite decide_False.
    + done.
Qed.

Lemma check_top_last s t item h :
  last (stack s) = Some t → check_top checkItem s item h = checkItem t item h.
Proof.
  intros Ht. unfold check_top. rewrite Top_of_default, Ht.
  destruct (stack s); [done|done].
Qed.

Lemma check_top_sound s item h r h' :
  CheckSound checkItem → check_top checkItem s item h = Ok (r, h') →
  links_kept h h' ∧ result_live h' r ∧ (stack s = [] → r = RTrue ∧ h' = h).
Proof.
  intros HS. unfold check_top. destruct (stack s) as [|x l] eqn:E.
  - intros [= <- <-]. split; [apply links_kept_refl|]. done.
  - destruct (Top_of s None) as [t|]; [|done]. intros H.
    destruct (HS _ _ _ _ _ H). done.
Qed.

(** *** The overlay and the accepting branch *)

Lemma fold_assign (cur own : EnvList) :
  map_fold assign own cur = copied cur own ∪ own.
Proof.
  apply (map_fold_weak_ind (fun r m => r = copied m own ∪ own)).
  - unfold copied. case_decide; [rewrite delete_empty|];
      by rewrite (left_id_L ∅ (∪)).
  - intros i x m r Hi ->. unfold assign, copied.
    destruct (decide (own !! "__proto__" = None)) as [Ho|Ho].
    + destruct (decide (i = "__proto__")) as [->|Hne].
      * rewrite decide_True.
        -- by rewrite delete_insert_eq.
        -- split; [done|]. apply lookup_union_None. split; [|done].
           apply lookup_delete_eq.
      * rewrite decide_False by (by intros [? _]).
        by rewrite delete_insert_ne, insert_union_l.
    + rewrite decide_False.
      * by rewrite insert_union_l.
      * intros [-> Hn]. apply lookup_union_None in Hn as [_ Hn]. done.
Qed.

Lemma overlay_Ok (cur own : EnvList) :
  cur !! "hasOwnProperty" = None → overlay cur own = Ok (copied cur own ∪ own).
Proof.
  intros H. unfold overlay. rewrite decide_False.
  - by rewrite fold_assign.
  - rewrite H. by intros [? ?].
Qed.

Lemma overlay_Throw (cur own : EnvList) :
  is_Some (cur !! "hasOwnProperty") → overlay cur own = Throw TypeError.
Proof. intros H. unfold overlay. by rewrite decide_True. Qed.

Lemma copied_self (own : EnvList) : copied own own ∪ own = own.
Proof.
  unfold copied. case_decide as H; [rewrite delete_id by done|];
    by rewrite (idemp_L (∪)).
Qed.

(** What the accepting branch leaves when it returns. *)
Lemma accept_inv item m m' :
  accept item m = Ok m' →
  stack (stk m') = stack (stk m) ++ [item]
  ∧ global (stk m') = global (stk m)
  ∧ match item_env (heap m) item with
    | Some ienv =>
        _env (stk m') = Some ienv
        ∧ items (heap m') = items (heap m)
        ∧ match _env (stk m) with
          | Some cur =>
              record (heap m) cur !! "hasOwnProperty" = None
              ∧ envs (heap m') =
                  <[ienv := copied (record (heap m) cur) (record (heap m) ienv)
                            ∪ record (heap m) ienv]> (envs (heap m))
          | None => envs (heap m') = envs (heap m)
          end
    | None =>
        heap m' = write_env item (_env (stk m)) (heap m)
        ∧ _env (stk m') = _env (stk m)
    end.
Proof.
  unfold accept. destruct (item_env (heap m) item) as [ienv|].
  - destruct (_env (stk m)) as [cur|].
    + unfold overlay_into.
      destruct (record (heap m) cur !! "hasOwnProperty") as [v|] eqn:Ek.
      * rewrite overlay_Throw by (by rewrite Ek). done.
      * rewrite overlay_Ok by done. rewrite !bind_Ok.
        intros [= <-]. simpl. done.
    + rewrite bind_Ok. intros [= <-]. simpl. done.
  - intros [= <-]. simpl. done.
Qed.

(** When the accepting branch returns and when it throws. *)
Lemma accept_outcome item m :
  (∃ m', accept item m = Ok m')
  ∨ (accept item m = Throw TypeError
     ∧ ∃ ienv cur, item_env (heap m) item = Some ienv
         ∧ _env (stk m) = Some cur
         ∧ is_Some (record (heap m) cur !! "hasOwnProperty")).
Proof.
  unfold accept. destruct (item_env (heap m) item) as [ienv|]; [|by eauto].
  destruct (_env (stk m)) as [cur|]; [|by eauto].
  unfold overlay_into.
  destruct (record (heap m) cur !! "hasOwnProperty") as [v|] eqn:Ek.
  - right. rewrite overlay_Throw by (by rewrite Ek).
    split; [done|]. exists ienv, cur. by rewrite Ek.
  - left. rewrite overlay_Ok by done. by eauto.
Qed.

Lemma accept_no_env item m :
  item_env (heap m) item = None →
  accept item m =
  Ok (mkMachine (write_env item (_env (stk m)) (heap m))
        (mkStack (global (stk m)) (stack (stk m) ++ [item]) (_env (stk m)))).
Proof. intros H. unfold accept. by rewrite H. Qed.

Lemma accept_stack item m m' :
  accept item m = Ok m' →
  stack (stk m') = stack (stk m) ++ [item]
  ∧ global (stk m') = global (stk m).
Proof. intros H. by destruct (accept_inv _ _ _ H) as (? & ? & _). Qed.

Lemma accept_items item m m' :
  accept item m = Ok m' →
  items (heap m') =
  match item_env (heap m) item with
  | Some _ => items (heap m)
  | None => alter (StackItem.set_env (_env (stk m))) item (items (heap m))
  end.
Proof.
  intros H. destruct (accept_inv _ _ _ H) as (_ & _ & Hx).
  destruct (item_env (heap m) item).
  - by destruct Hx as (_ & ? & _).
  - destruct Hx as [-> _]. done.
Qed.

Lemma accept_live item m m' l :
  accept item m = Ok m' → live (heap m') l ↔ live (heap m) l.
Proof.
  intros H. unfold live. rewrite (accept_items _ _ _ H).
  destruct (item_env (heap m) item); [done|].
  apply (live_alter _ item l (heap m)).
Qed.

Lemma accept_item_global item m m' l :
  accept item m = Ok m' →
  item_global (heap m') l = item_global (heap m) l.
Proof.
  intros H. unfold item_global. rewrite (accept_items _ _ _ H).
  destruct (item_env (heap m) item); [done|].
  apply (item_global_write_env item _ (heap m)).
Qed.


Lemma accept_wf item m m' :
  accept item m = Ok m' → wf m → live (heap m) item → wf m'.
Proof.
  intros H Hwf Hl. unfold wf. destruct (accept_stack _ _ _ H) as [-> _].
  apply Forall_app. split.
  - eapply Forall_impl; [exact Hwf|]. intros l. by rewrite (accept_live _ _ _ _ H).
  - constructor; [|constructor]. by rewrite (accept_live _ _ _ _ H).
Qed.

Lemma args_live_ext h h' l :
  heap_ext h h' → Forall (arg_live h) l → Forall (arg_live h') l.
Proof.
  intros He H. eapply Forall_impl; [exact H|].
  intros [|n|r]; simpl; auto.
Qed.

Lemma wf_ext m h' : wf m → heap_ext (heap m) h' → wf (mkMachine h' (stk m)).
Proof. intros Hwf He. unfold wf; simpl. eapply Forall_impl; [exact Hwf|apply He]. Qed.

(** *** An induction principle for the invariants of Push

    A property of the machine that survives the preparation of an
    argument, a merge check on a non-empty stack, the accepting branch and
    Pop survives every Push that returns. *)
Lemma Push_invariant (I : Machine → Prop) :
  CheckSound checkItem →
  (∀ m a item h1, wf m → arg_live (heap m) a → I m →
     prepare _factory (stk m) a (heap m) = Ok (Some (item, h1)) →
     I (mkMachine h1 (stk m))) →
  (∀ m h', wf m → stack (stk m) ≠ [] → I m → links_kept (heap m) h' →
     I (mkMachine h' (stk m))) →
  (∀ m item m', wf m → live (heap m) item →
     item_global (heap m) item = Some (global (stk m)) → I m →
     accept item m = Ok m' → I m') →
  (∀ m r m', wf m → I m → Pop m = Ok (r, m') → I m') →
  ∀ fuel args m m', wf m → Forall (arg_live (heap m)) args → I m →
    Push checkItem _factory fuel args m = Ok m' →
    I m' ∧ wf m' ∧ heap_ext (heap m) (heap m').
Proof.
  intros HS P1 P2 P3 P4. induction fuel as [|fuel IHf]; [done|].
  induction args as [|a rest IHa]; intros m m' Hwf Hargs HI.
  { rewrite Push_nil. intros [= <-]. split; [done|]. split; [done|]. by intros l. }
  rewrite Push_cons. apply Forall_cons in Hargs as [Ha Hrest].
  destruct (prepare _factory (stk m) a (heap m)) as [[[item h1]|]|e|] eqn:Ep;
    [|by apply IHa|done|done].
  rewrite bind_Ok.
  destruct (prepare_spec _ _ _ _ _ Ep Ha) as (Hli & Hgi & Hold & _).
  assert (heap_ext (heap m) h1) as Hx1 by (intros l Hl; by apply Hold).
  pose proof (wf_ext m h1 Hwf Hx1) as Hwf1.
  pose proof (P1 m a item h1 Hwf Ha HI Ep) as HI1.
  destruct (check_top checkItem (stk m) item h1) as [[r h2]| |] eqn:Ec;
    simpl; try done.
  destruct (check_top_sound _ _ _ _ _ HS Ec) as (Hk & Hr & Hemp).
  pose proof (links_kept_ext _ _ Hk) as Hx2.
  pose proof (wf_ext _ h2 Hwf1 Hx2) as Hwf2. simpl in Hwf2.
  assert (I (mkMachine h2 (stk m))) as HI2.
  { destruct (stack (stk m)) eqn:Es.
    - destruct Hemp as [_ ->]; done.
    - apply (P2 (mkMachine h1 (stk m))); simpl; try done. by rewrite Es. }
  assert (item_global h2 item = Some (global (stk m))) as Hg2
    by (by rewrite (links_kept_item_global _ _ _ Hk Hli)).
  assert (heap_ext (heap m) h2) as Hx by (by eapply heap_ext_trans).
  set (m2 := mkMachine h2 (stk m)) in *.
  assert (∀ l m3 m4 t,
    Forall (arg_live h2) l → Pop m2 = Ok (t, m3) →
    Push checkItem _factory fuel l m3 = Ok m4 →
    Push checkItem _factory (S fuel) rest m4 = Ok m' →
    I m' ∧ wf m' ∧ heap_ext (heap m) (heap m')) as Hrepl.
  { intros l m3 m4 t Hl EP E4 E5.
    destruct (Pop_wf _ _ _ Hwf2 EP) as (Hwf3 & Hx3 & _).
    pose proof (P4 _ _ _ Hwf2 HI2 EP) as HI3.
    destruct (IHf l m3 m4 Hwf3 (args_live_ext _ _ _ Hx3 Hl) HI3 E4)
      as (HI4 & Hwf4 & Hx4).
    assert (heap_ext (heap m) (heap m4)) as Hx'
      by (eapply heap_ext_trans; [|exact Hx4];
          eapply heap_ext_trans; [exact Hx|exact Hx3]).
    destruct (IHa m4 m' Hwf4 (args_live_ext _ _ _ Hx' Hrest) HI4 E5)
      as (? & ? & ?).
    split; [done|]. split; [done|]. by eapply heap_ext_trans. }
  destruct r as [l|r| |].
  - destruct (Pop m2) as [[t m3]| |] eqn:EP; simpl; try done.
    destruct (Push checkItem _factory fuel l m3) as [m4| |] eqn:E4;
      simpl; try done.
    by apply (Hrepl l m3 m4 t).
  - destruct (Pop m2) as [[t m3]| |] eqn:EP; simpl; try done.
    destruct (Push checkItem _factory fuel [AItem r] m3) as [m4| |] eqn:E4;
      simpl; try done.
    apply (Hrepl [AItem r] m3 m4 t); try done.
    by constructor.
  - destruct (accept item m2) as [m3| |] eqn:Eacc; [|done|done].
    rewrite bind_Ok. intros E5.
    assert (heap_ext (heap m) (heap m3)) as Hx'.
    { intros l Hl. apply (accept_live _ _ _ _ Eacc). by apply Hx. }
    destruct (IHa m3 m') as (? & ? & ?); try done.
    + apply (accept_wf _ _ _ Eacc); [done|]. by apply Hx2.
    + by apply (args_live_ext (heap m)).
    + apply (P3 m2 item); try done. by apply Hx2.
    + split; [done|]. split; [done|]. by eapply heap_ext_trans.
  - intros E5.
    destruct (IHa m2 m') as (? & ? & ?); try done.
    + by apply (args_live_ext (heap m)).
    + split; [done|]. split; [done|]. by eapply heap_ext_trans.
Qed.

(** *** The constructor *)

Lemma create_inv {A} (builder : option (A → ItemInit)) arg h r h' :
  create builder arg h = Ok (r, h') →
  ∃ build, builder = Some build ∧ new_item (build arg) h = (r, h').
Proof.
  unfold create. destruct builder as [b|]; [|done].
  intros [= H]. by exists b.
Qed.

Lemma constructor_inv env inner h m :
  constructor _factory env inner h = Ok m →
  ∃ build g h1 start h2,
    start_builder _factory = Some build
    ∧ new_record {[ "isInner" := VBool inner ]} h = (g, h1)
    ∧ new_item (build g) h1 = (start, h2)
    ∧ m = mkMachine
            (match env with
             | Some e => write_env start (Some e) h2
             | None => h2
             end)
            (mkStack g [start]
               (item_env (match env with
                          | Some e => write_env start (Some e) h2
                          | None => h2
                          end) start)).
Proof.
  unfold constructor.
  destruct (new_record _ h) as [g h1] eqn:Eg.
  destruct (create (start_builder _factory) g h1) as [[start h2]| |] eqn:Ec;
    [|done|done].
  rewrite bind_Ok. intros [= <-].
  apply create_inv in Ec as (b & Hb & Hn).
  by exists b, g, h1, start, h2.
Qed.

Lemma constructor_Ok env inner h build :
  start_builder _factory = Some build →
  ∃ m, constructor _factory env inner h = Ok m.
Proof.
  intros Hb. unfold constructor, create. rewrite Hb.
  destruct (new_record _ h) as [g h1]. rewrite bind_Ok.
  destruct (new_item (build g) h1) as [start h2]. by eexists.
Qed.

Lemma constructor_spec env inner h m :
  constructor _factory env inner h = Ok m →
  ∃ start build, stack (stk m) = [start] ∧ live (heap m) start
    ∧ _env (stk m) = item_env (heap m) start
    ∧ start_builder _factory = Some build
    ∧ item_global (heap m) start = init_global (build (global (stk m))).
Proof.
  intros Hc.
  destruct (constructor_inv _ _ _ _ Hc)
    as (b & g & h1 & start & h2 & Hb & _ & Es & ->).
  apply new_item_spec in Es as (Hfresh & (it & Hit & Hg & _) & _).
  simpl. exists start, b. split; [done|].
  destruct env as [e|].
  - split; [apply live_alter; unfold live; rewrite Hit, lookup_insert_eq; by eexists|].
    split; [done|]. split; [done|]. rewrite item_global_write_env.
    unfold item_global. by rewrite Hit, lookup_insert_eq.
  - split; [unfold live; rewrite Hit, lookup_insert_eq; by eexists|].
    split; [done|]. split; [done|].
    unfold item_global. by rewrite Hit, lookup_insert_eq.
Qed.

Lemma prepare_frame s a h item h1 :
  prepare _factory s a h = Ok (Some (item, h1)) →
  (∀ r, live h r →
     item_env h1 r = item_env h r ∧ item_data h1 r = item_data h r)
  ∧ (∀ l, is_Some (envs h !! l) → envs h1 !! l = envs h !! l).
Proof.
  intros Hp.
  destruct (prepare_inv _ _ _ _ _ Hp)
    as [(n & b & h' & -> & _ & E & ->)|[-> ->]].
  - apply new_item_spec in E as (Hfresh & (it & Hit & _) & He).
    split; [|done]. intros l [x Hx].
    rewrite item_env_write_global, item_data_write_global.
    unfold item_env, item_data.
    rewrite Hit, lookup_insert_ne; [done|congruence].
  - split; [|done]. intros l _.
    by rewrite item_env_write_global, item_data_write_global.
Qed.

(** The accepting branch on an item that carries its own record. *)
Lemma accept_own_env item m m' ienv :
  item_env (heap m) item = Some ienv → accept item m = Ok m' →
  stack (stk m') = stack (stk m) ++ [item]
  ∧ _env (stk m') = Some ienv
  ∧ items (heap m') = items (heap m)
  ∧ match _env (stk m) with
    | Some cur =>
        record (heap m) cur !! "hasOwnProperty" = None
        ∧ envs (heap m') =
            <[ienv := copied (record (heap m) cur) (record (heap m) ienv)
                      ∪ record (heap m) ienv]> (envs (heap m))
    | None => envs (heap m') = envs (heap m)
    end.
Proof.
  intros E H. destruct (accept_inv _ _ _ H) as (Hs & _ & Hx).
  rewrite E in Hx. destruct Hx as (? & ? & ?). done.
Qed.

(** The accepting branch returns unless the current record blocks the
    overlay. *)
Lemma accept_Ok item m :
  (∀ cur, _env (stk m) = Some cur →
     record (heap m) cur !! "hasOwnProperty" = None) →
  ∃ m', accept item m = Ok m'.
Proof.
  intros Hk. destruct (accept_outcome item m) as [?|[_ H]]; [done|].
  destruct H as (ienv & cur & _ & Hc & [v Hv]).
  rewrite (Hk cur Hc) in Hv. done.
Qed.

Lemma accept_blocked item m ienv cur :
  item_env (heap m) item = Some ienv → _env (stk m) = Some cur →
  is_Some (record (heap m) cur !! "hasOwnProperty") →
  accept item m = Throw TypeError.
Proof.
  intros Hi Hc Hk. unfold accept, overlay_into. rewrite Hi, Hc.
  by rewrite overlay_Throw.
Qed.

Lemma push_accepted_Some m item m' :
  push_accepted checkItem m item = Some m' →
  ∃ h2, check_top checkItem (stk m) item
          (write_global item (global (stk m)) (heap m)) = Ok (RTrue, h2)
        ∧ accept item (mkMachine h2 (stk m)) = Ok m'.
Proof.
  unfold push_accepted.
  destruct (check_top _ _ _ _) as [[[] h2]| |]; try done.
  destruct (accept item (mkMachine h2 (stk m))) as [m2| |] eqn:E; try done.
  intros [= <-]. by exists h2.
Qed.

Lemma Push_accepted fuel m item m' rest :
  push_accepted checkItem m item = Some m' →
  Push checkItem _factory (S fuel) (AItem item :: rest) m =
  Push checkItem _factory (S fuel) rest m'.
Proof.
  intros H. apply push_accepted_Some in H as (h2 & Hc & Ha).
  rewrite Push_cons. simpl. rewrite Hc. simpl. by rewrite Ha.
Qed.


(** *** The two invariants through Push *)


Lemma Pop_global_inv m r m' :
  global_inv m → Pop m = Ok (r, m') →
  global_inv m' ∧ global (stk m') = global (stk m).
Proof.
  intros HI HP. pose proof (Pop_inv _ _ _ HP) as Hl.
  destruct (Pop_ok m r Hl) as (m2 & HP2 & Hs & Hg & Hi & _).
  rewrite HP in HP2. injection HP2 as <-. split; [|done].
  unfold global_inv in *. rewrite Hs, Hg.
  apply Forall_removelast. eapply Forall_impl; [exact HI|].
  intros l Hx. simpl in Hx. rewrite <- Hx, <- (popped_heap_global (heap m) r l).
  unfold item_global. by rewrite Hi.
Qed.

Lemma Push_global_inv fuel args m m' :
  CheckSound checkItem → wf m → Forall (arg_live (heap m)) args →
  global_inv m → Push checkItem _factory fuel args m = Ok m' →
  wf m' ∧ global_inv m' ∧ global (stk m') = global (stk m).
Proof.
  intros HS Hwf Hargs Hinv HP.
  set (I := fun x => global_inv x ∧ global (stk x) = global (stk m)).
  destruct (Push_invariant I HS) with (5 := Hwf) (6 := Hargs) (8 := HP)
    as ([? ?] & ? & _); try done.
  - intros m0 a item h1 Hwf0 Ha [HI Hg] Hp. split; [|done].
    destruct (prepare_spec _ _ _ _ _ Hp Ha) as (_ & Hgi & Hold & _).
    unfold global_inv in *; simpl.
    apply Forall_forall. intros l Hin.
    destruct (decide (l = item)) as [->|Hne]; [done|].
    unfold wf in Hwf0. rewrite Forall_forall in HI, Hwf0.
    destruct (Hold l (Hwf0 l Hin)) as (_ & _ & _ & Hsame).
    rewrite Hsame by done. by apply HI.
  - intros m0 h' Hwf0 _ [HI Hg] Hk. split; [|done].
    unfold global_inv in *; simpl.
    apply Forall_forall. intros l Hin.
    unfold wf in Hwf0. rewrite Forall_forall in HI, Hwf0.
    rewrite (links_kept_item_global _ _ _ Hk (Hwf0 l Hin)). by apply HI.
  - intros m0 item m1 _ Hl Hgi [HI Hg] Hacc.
    destruct (accept_stack item m0 m1 Hacc) as [Hs Hgl]. split; [|congruence].
    unfold global_inv in *. rewrite Hs, Hgl.
    apply Forall_app. split.
    + eapply Forall_impl; [exact HI|]. intros l Hx. simpl in Hx.
      by rewrite (accept_item_global _ _ _ _ Hacc).
    + constructor; [|constructor]. by rewrite (accept_item_global _ _ _ _ Hacc).
  - intros m0 r m1 _ [HI Hg] HP0.
    destruct (Pop_global_inv _ _ _ HI HP0). split; [done|congruence].
Qed.

(** *** Accepted pushes, then as many pops *)

Lemma run_accepted_stack its : ∀ m m',
  run_accepted checkItem its m = Some m' →
  stack (stk m') = stack (stk m) ++ its
  ∧ ∀ fuel, PushEach checkItem _factory (S fuel) its m = Ok m'.
Proof.
  induction its as [|i its IH]; intros m m'.
  { simpl. intros [= <-]. by rewrite app_nil_r. }
  cbn [run_accepted PushEach].
  destruct (push_accepted checkItem m i) as [m1|] eqn:Ea; [|done].
  intros Hrun. simpl in Hrun. pose proof Ea as Ea'.
  apply push_accepted_Some in Ea as (h2 & _ & Hacc).
  destruct (IH _ m' Hrun) as (Hs & HP).
  destruct (accept_stack i (mkMachine h2 (stk m)) m1 Hacc) as [Hs2 _].
  split.
  - rewrite Hs, Hs2. simpl. by rewrite <- app_assoc.
  - intros fuel. rewrite (Push_accepted fuel m i _ [] Ea'), Push_nil.
    simpl. apply HP.
Qed.

Lemma run_accepted_env its : ∀ m m' t,
  CheckSound checkItem → live (heap m) t → t ∉ its →
  run_accepted checkItem its m = Some m' →
  item_env (heap m') t = item_env (heap m) t.
Proof.
  induction its as [|i its IH]; intros m m' t HS Hl Hn.
  { simpl. by intros [= <-]. }
  cbn [run_accepted].
  apply not_elem_of_cons in Hn as [Hti Hn].
  destruct (push_accepted checkItem m i) as [m1|] eqn:Ea; [|done].
  intros Hrun. simpl in Hrun.
  apply push_accepted_Some in Ea as (h2 & Hc & Hacc).
  destruct (check_top_sound _ _ _ _ _ HS Hc) as (Hk & _ & _).
  set (m2 := mkMachine h2 (stk m)) in *.
  assert (live (write_global i (global (stk m)) (heap m)) t) as Hl1
    by (by apply live_alter).
  assert (item_env h2 t = item_env (heap m) t) as He2.
  { rewrite (links_kept_item_env _ _ _ Hk Hl1).
    apply item_env_write_global. }
  assert (item_env (heap m1) t = item_env (heap m) t) as He3.
  { rewrite <- He2. unfold item_env. rewrite (accept_items _ _ _ Hacc).
    destruct (item_env (heap m2) i); [done|].
    by rewrite lookup_alter_ne. }
  assert (live (heap m1) t) as Hl3.
  { apply (accept_live _ _ _ _ Hacc). by apply (links_kept_ext _ _ Hk). }
  by rewrite (IH m1 m' t HS Hl3 Hn Hrun).
Qed.

Lemma PopN_spec its : ∀ m base,
  stack (stk m) = base ++ its →
  ∃ m'', PopN (length its) m = Ok m''
    ∧ stack (stk m'') = base
    ∧ ∀ t, last base = Some t → t ∉ its →
        item_env (heap m'') t = item_env (heap m) t
        ∧ (its ≠ [] → _env (stk m'') = item_env (heap m'') t).
Proof.
  induction its as [|x its IH] using rev_ind; intros m base Hs.
  { exists m. rewrite app_nil_r in Hs. by repeat split. }
  rewrite length_app, Nat.add_1_r. simpl.
  rewrite app_assoc in Hs.
  assert (last (stack (stk m)) = Some x) as Hlast
    by (by rewrite Hs, last_snoc).
  destruct (Pop_ok m x Hlast) as (m1 & HP & Hs1 & _ & Hi & _ & Hinv).
  rewrite HP. simpl.
  rewrite Hs, removelast_last in Hs1.
  destruct (IH m1 base Hs1) as (m2 & HP2 & Hs2 & Ht).
  exists m2. split; [done|]. split; [done|].
  intros t Hb Hn.
  apply not_elem_of_app in Hn as [Hn Hx].
  apply not_elem_of_cons in Hx as [Hx _].
  assert (item_env (heap m1) t = item_env (heap m) t) as He1.
  { unfold item_env. by rewrite Hi, popped_heap_other. }
  destruct (Ht t Hb Hn) as [He2 Henv].
  split; [congruence|].
  intros _. destruct its as [|y its'].
  - simpl in HP2. injection HP2 as <-.
    unfold env_inv in Hinv. rewrite Hs1, app_nil_r, Hb in Hinv. done.
  - by apply Henv.
Qed.

End Lemmas.

(** *** The sample variants are sound *)

Lemma Sample_checkItem_sound : CheckSound Sample.checkItem.
Proof.
  intros t i h r h'. unfold Sample.checkItem.
  destruct (items h !! t) as [it|] eqn:Et; [|done].
  destruct (items h !! i) as [ii|] eqn:Ei; [|done].
  assert (∀ init x hx, new_item init h = (x, hx) →
            links_kept h hx ∧ live hx x ∧ live hx i) as Hnew.
  { intros init x hx E.
    apply new_item_spec in E as (Hfresh & (nit & Hnit & _) & _).
    split; [|split].
    - intros l y Hy. exists y. rewrite Hnit, lookup_insert_ne; [done|congruence].
    - unfold live. rewrite Hnit, lookup_insert_eq. by eexists.
    - unfold live. rewrite Hnit, lookup_insert_ne; [by eexists|congruence]. }
  repeat case_decide.
  - intros [= <- <-]. split; [|done]. intros l y Hy. simpl.
    destruct (decide (t = l)) as [->|Hne].
    + rewrite lookup_insert_eq. eexists; split; [done|].
      rewrite Et in Hy. by injection Hy as <-.
    + rewrite lookup_insert_ne by done. by exists y.
  - destruct (new_item _ h) as [x hx] eqn:E. intros [= <- <-].
    destruct (Hnew _ _ _ E) as (? & ? & ?). done.
  - destruct (new_item _ h) as [x hx] eqn:E. intros [= <- <-].
    destruct (Hnew _ _ _ E) as (? & ? & ?). split; [done|].
    simpl. by repeat constructor.
  - done.
  - destruct (new_item _ h) as [x hx] eqn:E. intros [= <- <-].
    destruct (Hnew _ _ _ E) as (? & ? & ?). split; [done|].
    simpl. by repeat constructor.
  - intros [= <- <-]. split; [apply links_kept_refl|done].
Qed.

(** * Properties of the Stack *)

Section Properties.

Variable checkItem : loc → loc → Heap → Outcome (CheckResult * Heap).
Variable _factory : StackItemFactory.

(** C1, as amended.  When Push accepts an item that carries its own
    record and the current record has no own key [hasOwnProperty], the new
    current environment is the item's record, and it holds every key of the
    former current environment with the value of the current environment,
    together with the keys that only the item had: a key set on both takes
    the value of the current environment.  (The key [__proto__] is copied
    only where the item's record has it as an own key.)  When the current
    record has an own key [hasOwnProperty], the test of the loop throws a
    [TypeError].  The records are read where Push reads them, after the
    merge check. *)
Theorem Push_overlay_current_wins fuel m item h2 ienv own c cur :
  check_top checkItem (stk m) item
    (write_global item (global (stk m)) (heap m)) = Ok (RTrue, h2) →
  item_env h2 item = Some ienv → envs h2 !! ienv = Some own →
  _env (stk m) = Some c → envs h2 !! c = Some cur →
  (is_Some (cur !! "hasOwnProperty") →
     Push checkItem _factory (S fuel) [AItem item] m = Throw TypeError)
  ∧ (cur !! "hasOwnProperty" = None →
     ∃ m', Push checkItem _factory (S fuel) [AItem item] m = Ok m'
       ∧ stack (stk m') = stack (stk m) ++ [item]
       ∧ _env (stk m') = Some ienv
       ∧ current_record m' = Some (copied cur own ∪ own)
       ∧ (∀ k v, cur !! k = Some v →
            k ≠ "__proto__" ∨ is_Some (own !! "__proto__") →
            (copied cur own ∪ own) !! k = Some v)
       ∧ (∀ k, cur !! k = None → (copied cur own ∪ own) !! k = own !! k)
       ∧ (own !! "__proto__" = None →
            (copied cur own ∪ own) !! "__proto__" = None)).
Proof.
  intros Hc Hi Ho He Hcur.
  assert (record h2 c = cur) as Hrc by (unfold record; by rewrite Hcur).
  assert (record h2 ienv = own) as Hro by (unfold record; by rewrite Ho).
  assert (Push checkItem _factory (S fuel) [AItem item] m =
          accept item (mkMachine h2 (stk m))) as HP.
  { rewrite Push_cons. simpl. rewrite Hc. simpl.
    by destruct (accept item (mkMachine h2 (stk m))). }
  rewrite HP. split.
  - intros Hk. apply (accept_blocked item _ ienv c); simpl; try done.
    by rewrite Hrc.
  - intros Hk.
    destruct (accept_Ok item (mkMachine h2 (stk m))) as [m' Hacc].
    { simpl. intros c' Hc'. rewrite He in Hc'. injection Hc' as <-.
      by rewrite Hrc. }
    destruct (accept_own_env item (mkMachine h2 (stk m)) m' ienv Hi Hacc) as (Hs & Hen & _ & Hrec).
    simpl in Hrec. rewrite He, Hrc, Hro in Hrec. destruct Hrec as [_ Hrec].
    exists m'. split; [done|]. split; [done|]. split; [done|]. split.
    { unfold current_record. rewrite Hen. simpl.
      by rewrite Hrec, lookup_insert_eq. }
    unfold copied. split; [|split].
    + intros k v Hkv Hp. apply lookup_union_Some_l.
      case_decide as Hd; [|done].
      destruct Hp as [Hp|[w Hw]]; [|congruence].
      by rewrite lookup_delete_ne.
    + intros k Hkn. apply lookup_union_r. case_decide; [|done].
      destruct (decide ("__proto__" = k)) as [<-|Hne];
        [apply lookup_delete_eq|by rewrite lookup_delete_ne].
    + intros Hn. rewrite decide_True by done.
      apply lookup_union_None. split; [apply lookup_delete_eq|done].
Qed.

(** C10.  When Push accepts an item that carries its own record, the
    overlay writes into that record: after the call the current environment
    is that very record (the item's [env] reference is unchanged and no
    record is allocated), the record holds its own keys and those copied
    from the former current record, and every other record, the former
    current one among them, is as the merge check left it; before the merge
    check Push itself changes no record.  The call returns whenever the
    current record has no own key [hasOwnProperty]. *)
Theorem Push_overlay_in_place fuel m a item h1 h2 ienv own :
  prepare _factory (stk m) a (heap m) = Ok (Some (item, h1)) →
  check_top checkItem (stk m) item h1 = Ok (RTrue, h2) →
  item_env h2 item = Some ienv → envs h2 !! ienv = Some own →
  ((∀ c, _env (stk m) = Some c → record h2 c !! "hasOwnProperty" = None) →
     ∃ m', Push checkItem _factory (S fuel) [a] m = Ok m')
  ∧ (∀ m', Push checkItem _factory (S fuel) [a] m = Ok m' →
       _env (stk m') = Some ienv
       ∧ item_env (heap m') item = Some ienv
       ∧ dom (envs (heap m')) = dom (envs h2)
       ∧ envs (heap m') !! ienv =
           Some (match _env (stk m) with
                 | Some c => copied (record h2 c) own ∪ own
                 | None => own
                 end)
       ∧ (∀ k, is_Some (own !! k) → is_Some (record (heap m') ienv !! k))
       ∧ (∀ l, l ≠ ienv → envs (heap m') !! l = envs h2 !! l)
       ∧ (∀ c, _env (stk m) = Some c →
               envs (heap m') !! c = envs h2 !! c)
       ∧ (∀ e, is_Some (envs (heap m) !! e) →
               envs h1 !! e = envs (heap m) !! e)).
Proof.
  intros Hp Hc Hi Ho.
  assert (record h2 ienv = own) as Hro by (unfold record; by rewrite Ho).
  assert (Push checkItem _factory (S fuel) [a] m =
          accept item (mkMachine h2 (stk m))) as HP.
  { rewrite Push_cons, Hp, bind_Ok, Hc, bind_Ok. cbv beta iota zeta.
    by destruct (accept item (mkMachine h2 (stk m))). }
  rewrite HP. split; [intros Hk; by apply accept_Ok|].
  intros m' Hacc.
  destruct (accept_own_env item (mkMachine h2 (stk m)) m' ienv Hi Hacc) as (_ & Hen & Hit & Hrec).
  simpl in Hrec, Hit. rewrite Hro in Hrec.
  destruct (prepare_frame _ _ _ _ _ _ Hp) as [_ Hpre].
  split; [done|]. split; [unfold item_env in *; by rewrite Hit|].
  destruct (_env (stk m)) as [cur|].
  - destruct Hrec as [_ Hrec]. rewrite Hrec.
    split; [|split; [|split; [|split; [|split; [|done]]]]].
    + rewrite dom_insert_L. apply subseteq_union_1_L, singleton_subseteq_l.
      by apply elem_of_dom_2 in Ho.
    + by rewrite lookup_insert_eq.
    + intros k [v Hv]. unfold record. rewrite Hrec, lookup_insert_eq. simpl.
      destruct ((copied (record h2 cur) own) !! k) as [w|] eqn:E.
      * exists w. by apply lookup_union_Some_l.
      * exists v. by rewrite lookup_union_r.
    + intros l Hl. by rewrite lookup_insert_ne.
    + intros c [= <-]. destruct (decide (ienv = cur)) as [->|Hne].
      * rewrite lookup_insert_eq. rewrite Hro, copied_self. done.
      * by rewrite lookup_insert_ne.
  - rewrite Hrec.
    split; [done|]. split; [done|]. split; [|done].
    intros k Hk. unfold record. by rewrite Hrec, Ho.
Qed.

(** C9, as amended.  When the top item's merge check answers [false],
    Push drops the candidate: the Stack object (item sequence, depth,
    current environment reference) is unchanged, the heap is the one the
    merge check returned, and the loop goes on with the next argument.  Push
    itself adds no child and writes no record: the heap the check ran on has
    the children of the top item and every record as they were before the
    call, so they are unchanged after it wherever the merge check itself
    left them unchanged. *)
Theorem Push_rejected_no_effect fuel m t a rest item h1 h2 :
  last (stack (stk m)) = Some t → live (heap m) t →
  prepare _factory (stk m) a (heap m) = Ok (Some (item, h1)) →
  checkItem t item h1 = Ok (RFalse, h2) →
  ∃ m', Push checkItem _factory (S fuel) [a] m = Ok m'
    ∧ stk m' = stk m
    ∧ heap m' = h2
    ∧ Push checkItem _factory (S fuel) (a :: rest) m =
      Push checkItem _factory (S fuel) rest m'
    ∧ item_data h1 t = item_data (heap m) t
    ∧ item_env h1 t = item_env (heap m) t
    ∧ (∀ e, is_Some (envs (heap m) !! e) →
            envs h1 !! e = envs (heap m) !! e)
    ∧ (item_data h2 t = item_data h1 t →
         item_data (heap m') t = item_data (heap m) t)
    ∧ (∀ e, is_Some (envs (heap m) !! e) → envs h2 !! e = envs h1 !! e →
            envs (heap m') !! e = envs (heap m) !! e)
    ∧ (h2 = h1 →
         length (stack (stk m')) = length (stack (stk m))
         ∧ item_data (heap m') t = item_data (heap m) t
         ∧ (∀ x, current_record m = Some x → current_record m' = Some x)).
Proof.
  intros Ht Hl Hp Hc. exists (mkMachine h2 (stk m)).
  destruct (prepare_frame _ _ _ _ _ _ Hp) as [Hold Henv].
  destruct (Hold t Hl) as [He Hd].
  rewrite !Push_cons, Hp, !bind_Ok, (check_top_last _ _ t) by done.
  rewrite Hc. simpl.
  split; [done|]. split; [done|]. split; [done|]. split; [done|].
  split; [done|]. split; [done|]. split; [done|].
  split; [by intros ->|].
  split; [intros e Hsome ->; by apply Henv|].
  intros ->. split; [done|]. split; [done|].
  unfold current_record; simpl. destruct (_env (stk m)) as [c|]; [|done].
  simpl. intros x Hx. rewrite <- Hx. apply Henv. by rewrite Hx.
Qed.

(** C7.  [Top(n)] for [n] beyond the depth of the stack returns the
    absent result and does not throw; called without argument it returns
    the topmost item; and no call of [Top] changes the machine state. *)
Theorem Top_beyond_depth m n :
  (Z.of_nat (length (stack (stk m))) < n)%Z →
  Top (Some n) m = Ok (None, m)
  ∧ Top None m = Ok (last (stack (stk m)), m)
  ∧ Top None m = Top (Some 1%Z) m
  ∧ (∀ k, ∃ r, Top k m = Ok (r, m)).
Proof.
  intros H. unfold Top.
  split; [by rewrite Top_of_beyond|].
  split; [by rewrite Top_of_default|].
  split; [reflexivity|].
  intros k. by eexists.
Qed.

(** C6, as amended.  Pop on a stack whose top item is [t]: Pop returns
    [t]; when [t] is closed its [env] is unset afterwards, when it is open
    the item is untouched; no other item changes and no record changes, so
    the item that becomes the new top, when it is another object than [t],
    has the [env] it had, which is the new current environment.  When the
    new top is [t] itself (one object at two positions of the stack) and
    [t] is closed, the new top has lost its [env]; in every case the new
    current environment is the [env] the new top has after the call. *)
Theorem Pop_closed_item_cleanup m t it :
  last (stack (stk m)) = Some t → items (heap m) !! t = Some it →
  ∃ m', Pop m = Ok (t, m')
    ∧ stack (stk m') = removelast (stack (stk m))
    ∧ (StackItem.isOpen it = false →
         items (heap m') !! t = Some (StackItem.set_env None it)
         ∧ item_env (heap m') t = None)
    ∧ (StackItem.isOpen it = true → items (heap m') !! t = Some it)
    ∧ (∀ r, r ≠ t → items (heap m') !! r = items (heap m) !! r)
    ∧ (∀ e, is_Some (envs (heap m) !! e) →
            envs (heap m') !! e = envs (heap m) !! e)
    ∧ (∀ t', last (stack (stk m')) = Some t' → t' ≠ t →
         item_env (heap m') t' = item_env (heap m) t'
         ∧ _env (stk m') = item_env (heap m) t')
    ∧ (∀ t', last (stack (stk m')) = Some t' →
         _env (stk m') = item_env (heap m') t'
         ∧ (t' = t → StackItem.isOpen it = false → _env (stk m') = None)).
Proof.
  intros Ht Hit.
  destruct (Pop_ok m t Ht) as (m' & HP & Hs & _ & Hi & He & Hinv).
  exists m'. split; [done|]. split; [done|].
  assert (∀ r, r ≠ t → items (heap m') !! r = items (heap m) !! r) as Hoth.
  { intros r Hr. rewrite Hi. by apply popped_heap_other. }
  assert (StackItem.isOpen it = false →
          items (heap m') !! t = Some (StackItem.set_env None it)) as Hx.
  { intros Hop. rewrite Hi. unfold popped_heap, item_isOpen.
    rewrite Hit, Hop. simpl. by rewrite lookup_alter_eq, Hit. }
  split; [|split; [|split; [done|split; [done|split]]]].
  - intros Hop. split; [by apply Hx|]. unfold item_env. by rewrite Hx.
  - intros Hop. rewrite Hi. unfold popped_heap, item_isOpen.
    by rewrite Hit, Hop.
  - intros t' Ht' Hne. unfold env_inv in Hinv. rewrite Ht' in Hinv.
    assert (item_env (heap m') t' = item_env (heap m) t') as Heq
      by (unfold item_env; by rewrite Hoth).
    split; [done|]. by rewrite Hinv.
  - intros t' Ht'. unfold env_inv in Hinv. rewrite Ht' in Hinv.
    split; [done|]. intros -> Hop. rewrite Hinv. unfold item_env.
    by rewrite Hx.
Qed.

(** C3, as amended.  On a Stack whose array is empty, [Pop] and [Prev]
    (with either flag) fail with the runtime [TypeError] of the property
    access on the missing item; they do not return, and the error is not
    a structured parse error. *)
Theorem Pop_Prev_on_empty_throw_TypeError m noPop :
  stack (stk m) = [] →
  Pop m = Throw TypeError
  ∧ Prev noPop m = Throw TypeError
  ∧ (∀ id, Pop m ≠ Throw (TexError id))
  ∧ (∀ id, Prev noPop m ≠ Throw (TexError id))
  ∧ (∀ r, Pop m ≠ Ok r) ∧ (∀ r, Prev noPop m ≠ Ok r).
Proof.
  intros Hs. rewrite Pop_empty by done.
  unfold Prev. rewrite Top_of_default, Hs. simpl. by repeat split.
Qed.


(** C5.  Every item on the stack refers to the Stack's own global
    record: the constructor establishes this when the 'start' builder
    stores the record it is given, Pop preserves it, and every Push that
    returns preserves it, for item variants whose merge checks do not
    reassign the [global] of existing items.  Push assigns the reference
    to every non-null argument before the merge check: the check runs on
    the heap in which the assignment is made, whether it then throws,
    rejects or accepts. *)
Theorem global_record_identity :
  (∀ env inner h build,
     start_builder _factory = Some build →
     (∀ g, init_global (build g) = Some g) →
     ∃ m, constructor _factory env inner h = Ok m
       ∧ wf m ∧ global_inv m)
  ∧ (∀ m r m', wf m → global_inv m → Pop m = Ok (r, m') →
       wf m' ∧ global_inv m' ∧ global (stk m') = global (stk m))
  ∧ (∀ fuel args m m',
       CheckSound checkItem → wf m → Forall (arg_live (heap m)) args →
       global_inv m → Push checkItem _factory fuel args m = Ok m' →
       wf m' ∧ global_inv m' ∧ global (stk m') = global (stk m))
  ∧ (∀ fuel m a rest item h1,
       arg_live (heap m) a →
       prepare _factory (stk m) a (heap m) = Ok (Some (item, h1)) →
       item_global h1 item = Some (global (stk m))
       ∧ (∀ e, check_top checkItem (stk m) item h1 = Throw e →
            Push checkItem _factory (S fuel) (a :: rest) m = Throw e)
       ∧ (∀ h2, check_top checkItem (stk m) item h1 = Ok (RFalse, h2) →
            Push checkItem _factory (S fuel) (a :: rest) m =
            Push checkItem _factory (S fuel) rest (mkMachine h2 (stk m)))
       ∧ (∀ h2, check_top checkItem (stk m) item h1 = Ok (RTrue, h2) →
            Push checkItem _factory (S fuel) (a :: rest) m =
            accept item (mkMachine h2 (stk m))
              ≫= Push checkItem _factory (S fuel) rest)).
Proof.
  split; [|split; [|split]].
  - intros env inner h b Hb Hg.
    destruct (constructor_Ok _factory env inner h b Hb) as [m Hm].
    exists m. split; [done|].
    destruct (constructor_spec _factory env inner h m Hm)
      as (s & b' & Hs & Hl & _ & Hb' & Hgl).
    rewrite Hb in Hb'. injection Hb' as <-.
    unfold wf, global_inv. rewrite Hs. rewrite Hg in Hgl.
    split; by repeat constructor.
  - intros m r m' Hwf Hinv HP.
    destruct (Pop_wf _ _ _ Hwf HP) as (? & _ & _).
    destruct (Pop_global_inv _ _ _ Hinv HP). done.
  - intros fuel args m m' HS Hwf Ha Hinv HP.
    by apply (Push_global_inv checkItem _factory fuel args m m').
  - intros fuel m a rest item h1 Ha Hp.
    destruct (prepare_spec _ _ _ _ _ _ Hp Ha) as (_ & Hg & _).
    split; [done|]. rewrite Push_cons, Hp, bind_Ok.
    split; [|split]; intros x Hc; by rewrite Hc.
Qed.

(** C8, as amended.  A sequence of plainly accepted pushes followed by as
    many Pops returns the stack to its former item sequence and depth.
    When the stack held at least one item, its current environment was the
    [env] of its top item [t], [t] is not among the pushed items and the
    merge checks do not reassign the [env] of existing items, the current
    environment is again the same reference. *)
Theorem push_pop_round_trip fuel m its m' :
  run_accepted checkItem its m = Some m' →
  PushEach checkItem _factory (S fuel) its m = Ok m'
  ∧ length (stack (stk m')) = length (stack (stk m)) + length its
  ∧ ∃ m'', PopN (length its) m' = Ok m''
      ∧ stack (stk m'') = stack (stk m)
      ∧ length (stack (stk m'')) = length (stack (stk m))
      ∧ ∀ t, CheckSound checkItem →
          last (stack (stk m)) = Some t → live (heap m) t →
          _env (stk m) = item_env (heap m) t → t ∉ its →
          _env (stk m'') = _env (stk m).
Proof.
  intros Hrun.
  destruct (run_accepted_stack checkItem _factory its m m' Hrun) as (Hs & HP).
  split; [apply HP|]. split; [by rewrite Hs, length_app|].
  destruct (PopN_spec its m' (stack (stk m)) Hs) as (m'' & HP' & Hs' & Ht').
  exists m''. split; [done|]. split; [done|]. split; [by rewrite Hs'|].
  intros t HS Ht Hl Hinv Hn.
  destruct (Ht' t Ht Hn) as [He' Henv].
  pose proof (run_accepted_env checkItem its m m' t HS Hl Hn Hrun) as He.
  destruct its as [|i its'].
  - simpl in HP', Hrun. injection HP' as <-. by injection Hrun as <-.
  - rewrite Henv by done. congruence.
Qed.

(** C2, as amended.  When the merge check of the top item [T] answers
    the list [[X, Y]], Push pops [T] and pushes [X], then [Y]; when both
    of these pushes are plainly accepted (by the item below [T], if any,
    and by [X]), the call returns and the stack is the items below [T]
    followed by [X] and [Y]. *)
Theorem replacement_list_order fuel m below T a cand h1 h2 X Y mX mY :
  stack (stk m) = below ++ [T] →
  prepare _factory (stk m) a (heap m) = Ok (Some (cand, h1)) →
  checkItem T cand h1 = Ok (RArray [AItem X; AItem Y], h2) →
  push_accepted checkItem (after_Pop (mkMachine h2 (stk m))) X = Some mX →
  push_accepted checkItem mX Y = Some mY →
  Pop (mkMachine h2 (stk m)) = Ok (T, after_Pop (mkMachine h2 (stk m)))
  ∧ stack (stk (after_Pop (mkMachine h2 (stk m)))) = below
  ∧ Push checkItem _factory (S (S fuel)) [a] m = Ok mY
  ∧ stack (stk mY) = below ++ [X; Y].
Proof.
  intros Hs Hp Hc HX HY.
  assert (last (stack (stk m)) = Some T) as Hl by (by rewrite Hs, last_snoc).
  destruct (Pop_ok (mkMachine h2 (stk m)) T Hl) as (m3 & HP & Hs3 & _).
  assert (after_Pop (mkMachine h2 (stk m)) = m3) as Ha
    by (unfold after_Pop; by rewrite HP).
  rewrite Ha in *. simpl in Hs3. rewrite Hs, removelast_last in Hs3.
  split; [done|]. split; [done|]. split.
  - rewrite Push_cons, Hp, bind_Ok, (check_top_last _ _ T) by done.
    rewrite Hc, bind_Ok. cbv beta iota zeta.
    rewrite HP, bind_Ok. cbv beta iota zeta.
    rewrite (Push_accepted _ _ fuel m3 X mX) by done.
    rewrite (Push_accepted _ _ fuel mX Y mY) by done.
    by rewrite Push_nil.
  - apply push_accepted_Some in HX as (hx & _ & HaX).
    apply push_accepted_Some in HY as (hy & _ & HaY).
    destruct (accept_stack _ _ _ HaY) as [-> _]. simpl.
    destruct (accept_stack _ _ _ HaX) as [-> _]. simpl.
    by rewrite Hs3, <- app_assoc.
Qed.

End Properties.

(** C1, witness: the Stack constructed on [{a: 0, b: 2}] and the open item
    with its own record [{a: 1}]; and the Stack constructed on
    [{hasOwnProperty: 1}], where the same push throws. *)
Lemma Push_overlay_current_wins_witness :
  (∃ m', Push Sample.checkItem Sample.factory 1
           [AItem Scenario.own_a.1] Scenario.before_push = Ok m'
     ∧ current_record m' =
         Some (copied {[ "a" := VNum 0; "b" := VNum 2 ]} {[ "a" := VNum 1 ]}
               ∪ {[ "a" := VNum 1 ]}))
  ∧ Push Sample.checkItem Sample.factory 1
      [AItem Cases.shadow_item.1] Cases.shadow_push = Throw TypeError.
Proof.
  split.
  - destruct (Push_overlay_current_wins Sample.checkItem Sample.factory 0
                Scenario.before_push Scenario.own_a.1
                (write_global Scenario.own_a.1
                   (global (stk Scenario.before_push))
                   (heap Scenario.before_push))
                4%positive {[ "a" := VNum 1 ]}
                1%positive {[ "a" := VNum 0; "b" := VNum 2 ]})
      as [_ Hok]; try (vm_compute; reflexivity).
    destruct Hok as (m' & HP & _ & _ & Hrec & _); [vm_compute; reflexivity|].
    exists m'. split; [exact HP|exact Hrec].
  - destruct (Push_overlay_current_wins Sample.checkItem Sample.factory 0
                Cases.shadow_push Cases.shadow_item.1 Cases.shadow_prepared
                4%positive {[ "a" := VNum 1 ]}
                1%positive {[ "hasOwnProperty" := VNum 1 ]})
      as [Hthrow _]; [vm_compute; reflexivity ..|].
    apply Hthrow. vm_compute. eexists. reflexivity.
Defined.

(** C1, counterexample: on the Stack whose current environment is
    [{a: 0, b: 2}], pushing the item whose own record is [{a: 1}] is
    accepted and leaves the current environment [{a: 0, b: 2}], not
    [{a: 1, b: 2}]. *)
Lemma Push_item_key_does_not_win :
  current_record Scenario.before_push
    = Some {[ "a" := VNum 0; "b" := VNum 2 ]}
  ∧ (item_env (heap Scenario.before_push) Scenario.own_a.1
       ≫= fun e => envs (heap Scenario.before_push) !! e)
    = Some {[ "a" := VNum 1 ]}
  ∧ ∃ m', Push Sample.checkItem Sample.factory 1
            [AItem Scenario.own_a.1] Scenario.before_push = Ok m'
      ∧ current_record m' = Some {[ "a" := VNum 0; "b" := VNum 2 ]}
      ∧ current_record m' ≠ Some {[ "a" := VNum 1; "b" := VNum 2 ]}.
Proof.
  split; [vm_compute; reflexivity|]. split; [vm_compute; reflexivity|].
  eexists. split; [vm_compute; reflexivity|].
  split; [vm_compute; reflexivity|].
  intros H. apply (f_equal (fun o => o ≫= fun r : EnvList => r !! "a")) in H.
  vm_compute in H. discriminate H.
Qed.

(** C10, witness: the same push; the current environment becomes the
    item's own record, reference 4, which now holds [{a: 0, b: 2}]; no
    record is allocated and the former current record is unchanged. *)
Lemma Push_overlay_in_place_witness :
  ∃ m', Push Sample.checkItem Sample.factory 1
          [AItem Scenario.own_a.1] Scenario.before_push = Ok m'
    ∧ _env (stk m') = Some 4%positive
    ∧ item_env (heap m') Scenario.own_a.1 = Some 4%positive
    ∧ envs (heap m') !! 4%positive
      = Some (copied {[ "a" := VNum 0; "b" := VNum 2 ]} {[ "a" := VNum 1 ]}
              ∪ {[ "a" := VNum 1 ]})
    ∧ envs (heap m') !! 1%positive
      = envs (heap Scenario.before_push) !! 1%positive.
Proof.
  destruct (Push_overlay_in_place Sample.checkItem Sample.factory 0
              Scenario.before_push (AItem Scenario.own_a.1) Scenario.own_a.1
              (write_global Scenario.own_a.1
                 (global (stk Scenario.before_push))
                 (heap Scenario.before_push))
              (write_global Scenario.own_a.1
                 (global (stk Scenario.before_push))
                 (heap Scenario.before_push))
              4%positive {[ "a" := VNum 1 ]})
    as [Hret Hall]; try (vm_compute; reflexivity).
  destruct Hret as [m' HP].
  { intros c Hc. vm_compute in Hc. injection Hc as <-.
    vm_compute. reflexivity. }
  destruct (Hall m' HP) as (He & Hi & _ & Hrec & _ & _ & Hc & _).
  exists m'. split; [exact HP|]. split; [exact He|]. split; [exact Hi|].
  split; [exact Hrec|].
  apply (Hc 1%positive). vm_compute. reflexivity.
Defined.

(** C9, witness: the childless 'mml' item pushed on the new Stack; the
    'start' item answers [false] and nothing changes.  And node 7 pushed
    on the new Stack: the 'start' item absorbs the wrapping item and
    answers [false]; the Stack object and the current record are
    unchanged. *)
Lemma Push_rejected_no_effect_witness :
  (∃ m', Push Sample.checkItem Sample.factory 1 [AItem Scenario.i_blank]
           Scenario.fresh_stack = Ok m'
     ∧ stk m' = stk Scenario.fresh_stack
     ∧ item_data (heap m') Scenario.i_start
       = item_data (heap Scenario.fresh_stack) Scenario.i_start
     ∧ current_record m' = Some ∅)
  ∧ (∃ m', Push Sample.checkItem Sample.factory 1 [ANode (Node 7)]
             Scenario.fresh_stack = Ok m'
       ∧ stk m' = stk Scenario.fresh_stack
       ∧ heap m' = heap Cases.node_absorbed
       ∧ envs (heap m') !! 4%positive
         = envs (heap Scenario.fresh_stack) !! 4%positive).
Proof.
  split.
  - destruct (Push_rejected_no_effect Sample.checkItem Sample.factory 0
                Scenario.fresh_stack Scenario.i_start (AItem Scenario.i_blank)
                [] Scenario.i_blank Scenario.blank_prepared
                Scenario.blank_prepared)
      as (m' & HP & Hs & _ & _ & _ & _ & _ & _ & _ & Hsame);
      [vm_compute; reflexivity|vm_compute; eexists; reflexivity
      |vm_compute; reflexivity|vm_compute; reflexivity|].
    destruct (Hsame eq_refl) as (_ & Hd & Hr).
    exists m'. split; [exact HP|]. split; [exact Hs|]. split; [exact Hd|].
    apply Hr. vm_compute. reflexivity.
  - destruct (Push_rejected_no_effect Sample.checkItem Sample.factory 0
                Scenario.fresh_stack Scenario.i_start (ANode (Node 7))
                [] Scenario.wrapped.1 Scenario.wrapped.2
                (heap Cases.node_absorbed))
      as (m' & HP & Hs & Hh & _ & _ & _ & _ & _ & Hrec & _);
      [vm_compute; reflexivity|vm_compute; eexists; reflexivity
      |vm_compute; reflexivity|vm_compute; reflexivity|].
    exists m'. split; [exact HP|]. split; [exact Hs|]. split; [exact Hh|].
    apply Hrec; [vm_compute; eexists; reflexivity|vm_compute; reflexivity].
Defined.

(** C9, counterexample: node 7 pushed on the new Stack.  The 'start' item
    takes the wrapping item as a child and answers [false]: the call
    returns with the Stack object unchanged, and the top item has a child
    it did not have before the call. *)
Lemma Push_rejected_top_gains_child :
  last (stack (stk Scenario.fresh_stack)) = Some Scenario.i_start
  ∧ prepare Sample.factory (stk Scenario.fresh_stack) (ANode (Node 7))
      (heap Scenario.fresh_stack) = Ok (Some Scenario.wrapped)
  ∧ Sample.checkItem Scenario.i_start Scenario.wrapped.1 Scenario.wrapped.2
    = Ok (RFalse, heap Cases.node_absorbed)
  ∧ Push Sample.checkItem Sample.factory 1 [ANode (Node 7)]
      Scenario.fresh_stack = Ok Cases.node_absorbed
  ∧ stk Cases.node_absorbed = stk Scenario.fresh_stack
  ∧ item_data (heap Scenario.fresh_stack) Scenario.i_start = []
  ∧ item_data (heap Cases.node_absorbed) Scenario.i_start = [Node 7]
  ∧ item_data (heap Cases.node_absorbed) Scenario.i_start
    ≠ item_data (heap Scenario.fresh_stack) Scenario.i_start.
Proof.
  split; [vm_compute; reflexivity|]. split; [vm_compute; reflexivity|].
  split; [vm_compute; reflexivity|]. split; [vm_compute; reflexivity|].
  split; [vm_compute; reflexivity|]. split; [vm_compute; reflexivity|].
  split; [vm_compute; reflexivity|]. vm_compute. discriminate.
Qed.

(** C7, witness: [Top(5)] on the new Stack, which holds one item. *)
Lemma Top_beyond_depth_witness :
  Top (Some 5%Z) Scenario.fresh_stack = Ok (None, Scenario.fresh_stack)
  ∧ Top None Scenario.fresh_stack
    = Ok (Some Scenario.i_start, Scenario.fresh_stack).
Proof.
  destruct (Top_beyond_depth Scenario.fresh_stack 5%Z) as (H1 & H2 & _).
  { vm_compute. reflexivity. }
  split; [exact H1|]. rewrite H2. reflexivity.
Defined.

(** C6, witness: Pop on the stack [start, leaf], whose top is closed and
    has its own record. *)
Lemma Pop_closed_item_cleanup_witness :
  ∃ m', Pop Scenario.with_leaf = Ok (Scenario.i_leaf, m')
    ∧ item_env (heap Scenario.with_leaf) Scenario.i_leaf = Some 2%positive
    ∧ item_env (heap m') Scenario.i_leaf = None
    ∧ item_env (heap m') Scenario.i_start
      = item_env (heap Scenario.with_leaf) Scenario.i_start.
Proof.
  destruct (Pop_closed_item_cleanup Scenario.with_leaf Scenario.i_leaf
              (StackItem.mk "leaf" false (Some 2%positive) (Some 3%positive) []))
    as (m' & HP & Hs & Hclosed & _ & _ & _ & Htop & _);
    try (vm_compute; reflexivity).
  exists m'. split; [exact HP|]. split; [vm_compute; reflexivity|].
  split; [apply Hclosed; reflexivity|].
  apply (Htop Scenario.i_start).
  - rewrite Hs. vm_compute. reflexivity.
  - discriminate.
Defined.

(** C6, counterexample: the closed 'leaf' item pushed twice, so that the
    stack is [start, leaf, leaf].  Pop returns the 'leaf' item and unsets
    its [env] field; the new top is that same object, so the [env] field of
    the new top has changed. *)
Lemma Pop_unsets_env_of_new_top :
  stack (stk Cases.twice_leaf)
    = [Scenario.i_start; Scenario.i_leaf; Scenario.i_leaf]
  ∧ item_isOpen (heap Cases.twice_leaf) Scenario.i_leaf = false
  ∧ item_env (heap Cases.twice_leaf) Scenario.i_leaf = Some 2%positive
  ∧ ∃ m', Pop Cases.twice_leaf = Ok (Scenario.i_leaf, m')
      ∧ last (stack (stk m')) = Some Scenario.i_leaf
      ∧ item_env (heap m') Scenario.i_leaf = None
      ∧ item_env (heap m') Scenario.i_leaf
        ≠ item_env (heap Cases.twice_leaf) Scenario.i_leaf.
Proof.
  split; [vm_compute; reflexivity|]. split; [vm_compute; reflexivity|].
  split; [vm_compute; reflexivity|].
  eexists. split; [vm_compute; reflexivity|].
  split; [vm_compute; reflexivity|]. split; [vm_compute; reflexivity|].
  vm_compute. discriminate.
Qed.

(** C3, witness: the Stack after its only item has been popped. *)
Lemma Pop_Prev_on_empty_throw_TypeError_witness :
  Pop Scenario.emptied = Throw TypeError
  ∧ Prev true Scenario.emptied = Throw TypeError
  ∧ Prev false Scenario.emptied = Throw TypeError.
Proof.
  destruct (Pop_Prev_on_empty_throw_TypeError Scenario.emptied true)
    as (H1 & H2 & _); [vm_compute; reflexivity|].
  destruct (Pop_Prev_on_empty_throw_TypeError Scenario.emptied false)
    as (_ & H3 & _); [vm_compute; reflexivity|].
  split; [exact H1|]. split; [exact H2|exact H3].
Defined.

(** C3, counterexample: on the emptied Stack, [Pop] and [Prev] throw the
    runtime [TypeError], not the parse error 'StackUnderflow'. *)
Lemma Pop_on_empty_is_not_StackUnderflow :
  stack (stk Scenario.emptied) = []
  ∧ Pop Scenario.emptied = Throw TypeError
  ∧ Pop Scenario.emptied ≠ Throw (TexError "StackUnderflow")
  ∧ Prev false Scenario.emptied = Throw TypeError
  ∧ Prev false Scenario.emptied ≠ Throw (TexError "StackUnderflow").
Proof.
  split; [vm_compute; reflexivity|].
  split; [vm_compute; reflexivity|].
  split; [vm_compute; discriminate|].
  split; [vm_compute; reflexivity|].
  vm_compute; discriminate.
Qed.

(** C2, witness: on the stack [start, begin], the 'begin' item answers the
    'row' item with the list of the row and a new cell; both are accepted
    and the stack becomes [start, row, cell]. *)
Lemma replacement_list_order_witness :
  Push Sample.checkItem Sample.factory 2 [AItem Scenario.i_row]
    Scenario.in_array
  = Ok (Scenario.push 2 [AItem Scenario.i_row] Scenario.in_array)
  ∧ stack (stk (Scenario.push 2 [AItem Scenario.i_row] Scenario.in_array))
    = [Scenario.i_start] ++ [Scenario.i_row; Scenario.i_cell].
Proof.
  destruct (replacement_list_order Sample.checkItem Sample.factory 0
              Scenario.in_array [Scenario.i_start] Scenario.i_begin
              (AItem Scenario.i_row) Scenario.i_row
              Scenario.row_prepared Scenario.row_answer
              Scenario.i_row Scenario.i_cell
              (Scenario.accepted
                 (after_Pop (mkMachine Scenario.row_answer
                               (stk Scenario.in_array)))
                 Scenario.i_row)
              (Scenario.push 2 [AItem Scenario.i_row] Scenario.in_array))
    as (_ & _ & HP & Hs); try (vm_compute; reflexivity).
  split; [exact HP|exact Hs].
Defined.

(** C2, counterexample: on the stack [start, open, over], the 'over' item
    answers the 'close' item with a list of two items, [X] and the 'close'
    item; [X] is absorbed by the 'open' item, which then answers the
    'close' item with one item, absorbed by 'start'.  The call returns with
    the stack [start]: neither element of the list is on it. *)
Lemma replacement_list_not_on_stack :
  stack (stk Scenario.in_fraction)
    = [Scenario.i_start; Scenario.i_open] ++ [Scenario.i_over]
  ∧ ∃ h1 h2 X,
      prepare Sample.factory (stk Scenario.in_fraction)
        (AItem Scenario.i_close) (heap Scenario.in_fraction)
      = Ok (Some (Scenario.i_close, h1))
      ∧ Sample.checkItem Scenario.i_over Scenario.i_close h1
        = Ok (RArray [AItem X; AItem Scenario.i_close], h2)
      ∧ ∃ m', Push Sample.checkItem Sample.factory 3
                [AItem Scenario.i_close] Scenario.in_fraction = Ok m'
          ∧ stack (stk m') = [Scenario.i_start]
          ∧ stack (stk m')
            ≠ [Scenario.i_start; Scenario.i_open] ++ [X; Scenario.i_close].
Proof.
  split; [vm_compute; reflexivity|].
  do 3 eexists. split; [vm_compute; reflexivity|].
  split; [vm_compute; reflexivity|].
  eexists. split; [vm_compute; reflexivity|].
  split; [vm_compute; reflexivity|].
  vm_compute. discriminate.
Qed.


(** C5, witness: the same run; every item left on the stack refers to the
    global record of the Stack. *)
Lemma global_record_identity_witness :
  global_inv Scenario.fresh_stack
  ∧ global_inv Scenario.in_fraction
  ∧ global_inv (Scenario.push 3 [AItem Scenario.i_close] Scenario.in_fraction)
  ∧ global_inv (after_Pop Scenario.in_fraction)
  ∧ item_global Scenario.wrapped.2 Scenario.wrapped.1
    = Some (global (stk Scenario.fresh_stack)).
Proof.
  destruct (global_record_identity Sample.checkItem Sample.factory)
    as (Hnew & Hpop & Hpush & Hassign).
  destruct (Hnew None false Scenario.parts
              (fun g => mkInit "start" true (Some ∅) (Some g) []))
    as (m0 & Hm0 & Hwf0 & Hinv0); [reflexivity|reflexivity|].
  assert (m0 = Scenario.fresh_stack) as ->.
  { assert (Ok m0 = Ok Scenario.fresh_stack) as Heq
      by (rewrite <- Hm0; vm_compute; reflexivity).
    injection Heq as ->. reflexivity. }
  destruct (Hpush 1 [AItem Scenario.i_open; AItem Scenario.i_over]
              Scenario.fresh_stack Scenario.in_fraction
              Sample_checkItem_sound Hwf0) as (Hwf1 & Hinv1 & _);
    [repeat constructor; vm_compute; eexists; reflexivity
    |exact Hinv0|vm_compute; reflexivity|].
  destruct (Hpush 3 [AItem Scenario.i_close] Scenario.in_fraction
              (Scenario.push 3 [AItem Scenario.i_close] Scenario.in_fraction)
              Sample_checkItem_sound Hwf1) as (Hwf2 & Hinv2 & _);
    [repeat constructor; vm_compute; eexists; reflexivity
    |exact Hinv1|vm_compute; reflexivity|].
  destruct (Hpop Scenario.in_fraction Scenario.i_over
              (after_Pop Scenario.in_fraction) Hwf1 Hinv1)
    as (_ & Hinv3 & _); [vm_compute; reflexivity|].
  destruct (Hassign 0 Scenario.fresh_stack (ANode (Node 7)) []
              Scenario.wrapped.1 Scenario.wrapped.2) as (Hg & _);
    [exact I|vm_compute; reflexivity|].
  split; [exact Hinv0|]. split; [exact Hinv1|]. split; [exact Hinv2|].
  split; [exact Hinv3|exact Hg].
Defined.

(** C8, witness: on the new Stack, the pushes of the 'open' and the 'over'
    item followed by two Pops. *)
Lemma push_pop_round_trip_witness :
  PushEach Sample.checkItem Sample.factory 1
    [Scenario.i_open; Scenario.i_over] Scenario.fresh_stack
  = Ok Scenario.in_fraction
  ∧ ∃ m'', PopN 2 Scenario.in_fraction = Ok m''
      ∧ stack (stk m'') = stack (stk Scenario.fresh_stack)
      ∧ _env (stk m'') = _env (stk Scenario.fresh_stack).
Proof.
  destruct (push_pop_round_trip Sample.checkItem Sample.factory 0
              Scenario.fresh_stack
              [Scenario.i_open; Scenario.i_over] Scenario.in_fraction)
    as (HP & _ & m'' & HN & Hs & _ & He); [vm_compute; reflexivity|].
  split; [exact HP|]. exists m''.
  split; [exact HN|]. split; [exact Hs|].
  apply (He Scenario.i_start Sample_checkItem_sound).
  - vm_compute. reflexivity.
  - vm_compute. eexists. reflexivity.
  - vm_compute. reflexivity.
  - intros H. apply elem_of_cons in H as [H|H]; [discriminate H|].
    apply elem_of_cons in H as [H|H]; [discriminate H|].
    by apply elem_of_nil in H.
Defined.

(** C8, counterexample: on the emptied Stack, the push of the 'open' item
    is accepted and the Pop that follows empties the stack again, but the
    current environment is a new record, not the one it was before. *)
Lemma round_trip_on_empty_stack_new_record :
  stack (stk Scenario.emptied) = []
  ∧ ∃ m1 m2,
      run_accepted Sample.checkItem [Scenario.i_open] Scenario.emptied = Some m1
      ∧ PushEach Sample.checkItem Sample.factory 1 [Scenario.i_open]
          Scenario.emptied = Ok m1
      ∧ PopN 1 m1 = Ok m2
      ∧ length (stack (stk m2)) = length (stack (stk Scenario.emptied))
      ∧ _env (stk m2) ≠ _env (stk Scenario.emptied).
Proof.
  split; [vm_compute; reflexivity|].
  do 2 eexists. split; [vm_compute; reflexivity|].
  split; [vm_compute; reflexivity|].
  split; [vm_compute; reflexivity|].
  split; [vm_compute; reflexivity|].
  vm_compute. discriminate.
Qed.

(** * Further properties of the Stack *)

Section Further.

Variable checkItem : loc → loc → Heap → Outcome (CheckResult * Heap).
Variable _factory : StackItemFactory.

(** The calls for the first argument do not depend on the later ones. *)
Lemma Push_cons_congr fuel x rest rest' :
  (∀ m, Push checkItem _factory (S fuel) rest m =
        Push checkItem _factory (S fuel) rest' m) →
  ∀ m, Push checkItem _factory (S fuel) (x :: rest) m =
       Push checkItem _factory (S fuel) (x :: rest') m.
Proof.
  intros H m. rewrite !Push_cons.
  destruct (prepare _factory (stk m) x (heap m)) as [[[item h1]|]| |];
    [|apply H|done|done].
  rewrite !bind_Ok. cbv beta iota zeta.
  destruct (check_top checkItem (stk m) item h1) as [[r h2]| |]; [|done|done].
  rewrite !bind_Ok. cbv beta iota zeta.
  destruct r as [l|r| |]; try apply H.
  - destruct (Pop (mkMachine h2 (stk m))) as [[t m3]| |]; [|done|done].
    rewrite !bind_Ok. cbv beta iota zeta.
    destruct (Push checkItem _factory fuel l m3) as [m4| |]; [|done|done].
    rewrite !bind_Ok. apply H.
  - destruct (Pop (mkMachine h2 (stk m))) as [[t m3]| |]; [|done|done].
    rewrite !bind_Ok. cbv beta iota zeta.
    destruct (Push checkItem _factory fuel [AItem r] m3) as [m4| |];
      [|done|done].
    rewrite !bind_Ok. apply H.
  - destruct (accept item (mkMachine h2 (stk m))) as [m3| |]; [|done|done].
    rewrite !bind_Ok. apply H.
Qed.

Lemma Push_all_null fuel l m :
  non_null l = [] → Push checkItem _factory (S fuel) l m = Ok m.
Proof.
  induction l as [|x l IH]; [done|].
  destruct x as [|n|r]; simpl non_null; [|done|done].
  intros Hl. rewrite Push_cons. simpl. by apply IH.
Qed.

(** The failures of [prepare] are those of the factory. *)
Lemma prepare_fails s a h :
  prepare _factory s a h ≠ OutOfFuel
  ∧ ∀ e, prepare _factory s a h = Throw e → e = UnknownItemKind.
Proof.
  destruct a as [|n|r]; simpl; [done| |done].
  unfold create. destruct (mml_builder _factory) as [build|]; simpl.
  - by destruct (new_item (build n) h).
  - split; [done|]. by intros e [= <-].
Qed.

(** X1.  Push composes over its argument list: one call with the
    arguments [a ++ b] has the outcome of the call with [a] followed, when
    that one returns, by the call with [b] (with the same bound on the
    recursion depth); when the first call throws, so does the whole. *)
Theorem Push_app fuel a b m :
  Push checkItem _factory fuel (a ++ b) m =
  Push checkItem _factory fuel a m ≫= Push checkItem _factory fuel b.
Proof.
  destruct fuel as [|fuel]; [done|].
  revert m. induction a as [|x a IH]; intros m.
  { by rewrite Push_nil. }
  rewrite <- app_comm_cons, !Push_cons.
  destruct (prepare _factory (stk m) x (heap m)) as [[[item h1]|]| |];
    [|apply IH|done|done].
  rewrite !bind_Ok. cbv beta iota zeta.
  destruct (check_top checkItem (stk m) item h1) as [[r h2]| |]; [|done|done].
  rewrite !bind_Ok. cbv beta iota zeta.
  destruct r as [l|r| |]; try apply IH.
  - destruct (Pop (mkMachine h2 (stk m))) as [[t m3]| |]; [|done|done].
    rewrite !bind_Ok. cbv beta iota zeta.
    destruct (Push checkItem _factory fuel l m3) as [m4| |]; [|done|done].
    rewrite !bind_Ok. apply IH.
  - destruct (Pop (mkMachine h2 (stk m))) as [[t m3]| |]; [|done|done].
    rewrite !bind_Ok. cbv beta iota zeta.
    destruct (Push checkItem _factory fuel [AItem r] m3) as [m4| |];
      [|done|done].
    rewrite !bind_Ok. apply IH.
  - destruct (accept item (mkMachine h2 (stk m))) as [m3| |]; [|done|done].
    rewrite !bind_Ok. apply IH.
Qed.

(** X2.  Null arguments are skipped: a call of Push has the outcome of the
    call with its null arguments removed; in particular a call whose
    arguments are all null returns the state unchanged. *)
Theorem Push_skips_null fuel args m :
  Push checkItem _factory fuel args m =
  Push checkItem _factory fuel (non_null args) m
  ∧ (non_null args = [] →
     Push checkItem _factory (S fuel) args m = Ok m).
Proof.
  assert (∀ f m0, Push checkItem _factory f args m0 =
                  Push checkItem _factory f (non_null args) m0) as Heq.
  { intros [|f]; [done|]. induction args as [|x args IH]; intros m0; [done|].
    destruct x as [|n|r]; simpl non_null.
    - rewrite Push_cons. simpl. apply IH.
    - by apply Push_cons_congr.
    - by apply Push_cons_congr. }
  split; [apply Heq|]. intros Hn. by rewrite Heq, Hn.
Qed.

(** X5.  With item variants whose merge checks only answer [true] or
    [false], Push makes no recursive call and removes no item: a call that
    returns leaves the former stack as a prefix of the new one and adds at
    most one item per non-null argument.  The only ways not to return are
    the [TypeError] of the overlay on a current record with the own key
    [hasOwnProperty] and the factory's refusal to wrap a node. *)
Theorem Push_plain_total fuel args m :
  answers_plainly checkItem →
  (∃ m', Push checkItem _factory (S fuel) args m = Ok m'
     ∧ stack (stk m) `prefix_of` stack (stk m')
     ∧ (length (stack (stk m')) ≤
          length (stack (stk m)) + length (non_null args))%nat)
  ∨ Push checkItem _factory (S fuel) args m = Throw TypeError
  ∨ Push checkItem _factory (S fuel) args m = Throw UnknownItemKind.
Proof.
  intros Hplain. revert m. induction args as [|x args IH]; intros m.
  { left. exists m. rewrite Push_nil. simpl.
    split; [done|]. split; [done|lia]. }
  assert (length (non_null args) ≤ length (non_null (x :: args)))%nat as Hlen
    by (destruct x; simpl; lia).
  rewrite Push_cons.
  destruct (prepare _factory (stk m) x (heap m)) as [[[item h1]|]|e|] eqn:Ep.
  - assert (length (non_null (x :: args)) = S (length (non_null args)))
      as Hlen' by (by destruct x).
    rewrite bind_Ok. cbv beta iota zeta.
    assert (∃ h2, check_top checkItem (stk m) item h1 = Ok (RTrue, h2)
                  ∨ check_top checkItem (stk m) item h1 = Ok (RFalse, h2))
      as (h2 & [Hc|Hc]).
    { unfold check_top. destruct (stack (stk m)) as [|y l] eqn:Es; [by eauto|].
      rewrite Top_of_default, Es.
      destruct (last (y :: l)) as [t|] eqn:El; [apply Hplain|].
      by apply last_None in El. }
    + rewrite Hc, bind_Ok. cbv beta iota zeta.
      destruct (accept_outcome item (mkMachine h2 (stk m)))
        as [[m3 Ha]|[Ha _]]; [|rewrite Ha; by right; left].
      rewrite Ha, bind_Ok.
      destruct (accept_stack _ _ _ Ha) as [Hs _]. simpl in Hs.
      destruct (IH m3) as [(m' & HP & Hpre & Hle)|[HT|HU]];
        [left|by right; left|by right; right].
      rewrite Hs in Hpre, Hle. rewrite length_app in Hle.
      exists m'. split; [done|]. split.
      * etrans; [|exact Hpre]. by apply prefix_app_r.
      * simpl in Hle. lia.
    + rewrite Hc, bind_Ok. cbv beta iota zeta.
      destruct (IH (mkMachine h2 (stk m))) as [(m' & HP & Hpre & Hle)|[HT|HU]];
        [left|by right; left|by right; right].
      exists m'. split; [done|]. split; [done|]. simpl in Hle. lia.
  - rewrite bind_Ok. cbv beta iota zeta.
    destruct (IH m) as [(m' & HP & Hpre & Hle)|[HT|HU]];
      [left|by right; left|by right; right].
    exists m'. split; [done|]. split; [done|]. lia.
  - right; right. destruct (prepare_fails (stk m) x (heap m)) as [_ He].
    by rewrite (He e Ep).
  - by destruct (prepare_fails (stk m) x (heap m)) as [Hne _].
Qed.

(** X6.  When the merge check of the top item [T] answers a single
    replacement item [R], Push pops [T] and pushes [R]; when that push is
    plainly accepted the call returns with [R] in the place of [T]: the
    items below are as before and the depth is unchanged. *)
Theorem replacement_item_takes_the_place fuel m below T a cand h1 h2 R mR :
  stack (stk m) = below ++ [T] →
  prepare _factory (stk m) a (heap m) = Ok (Some (cand, h1)) →
  checkItem T cand h1 = Ok (RItem R, h2) →
  push_accepted checkItem (after_Pop (mkMachine h2 (stk m))) R = Some mR →
  Push checkItem _factory (S (S fuel)) [a] m = Ok mR
  ∧ stack (stk mR) = below ++ [R]
  ∧ length (stack (stk mR)) = length (stack (stk m)).
Proof.
  intros Hs Hp Hc HR.
  assert (last (stack (stk m)) = Some T) as Hl by (by rewrite Hs, last_snoc).
  destruct (Pop_ok (mkMachine h2 (stk m)) T Hl) as (m3 & HP & Hs3 & _).
  assert (after_Pop (mkMachine h2 (stk m)) = m3) as Ha
    by (unfold after_Pop; by rewrite HP).
  rewrite Ha in *. simpl in Hs3. rewrite Hs, removelast_last in Hs3.
  assert (stack (stk mR) = below ++ [R]) as HsR.
  { pose proof HR as HR'. apply push_accepted_Some in HR' as (hx & _ & HaR).
    destruct (accept_stack _ _ _ HaR) as [-> _]. simpl.
    by rewrite Hs3. }
  split; [|split; [done|by rewrite HsR, Hs, !length_app]].
  rewrite Push_cons, Hp, bind_Ok, (check_top_last _ _ T) by done.
  rewrite Hc, bind_Ok. cbv beta iota zeta.
  rewrite HP, bind_Ok. cbv beta iota zeta.
  rewrite (Push_accepted _ _ fuel m3 R mR) by done.
  by rewrite Push_nil.
Qed.

(** X7.  When Push accepts an item that has no [env] of its own, the item
    inherits the current environment by reference: its [env] becomes the
    current reference, which stays the current environment; no record is
    written or allocated and no other item changes. *)
Theorem Push_inherits_env fuel m a item h1 h2 :
  prepare _factory (stk m) a (heap m) = Ok (Some (item, h1)) →
  check_top checkItem (stk m) item h1 = Ok (RTrue, h2) →
  live h2 item → item_env h2 item = None →
  ∃ m', Push checkItem _factory (S fuel) [a] m = Ok m'
    ∧ stack (stk m') = stack (stk m) ++ [item]
    ∧ _env (stk m') = _env (stk m)
    ∧ item_env (heap m') item = _env (stk m)
    ∧ envs (heap m') = envs h2
    ∧ (∀ r, r ≠ item → items (heap m') !! r = items h2 !! r).
Proof.
  intros Hp Hc [it Hit] He.
  eexists.
  rewrite Push_cons, Hp, bind_Ok, Hc, bind_Ok. cbv beta iota zeta.
  rewrite (accept_no_env item (mkMachine h2 (stk m))) by done.
  rewrite bind_Ok, Push_nil. split; [reflexivity|]. simpl.
  split; [done|]. split; [done|]. split; [|split; [done|]].
  - rewrite item_env_write_env, decide_True by done. by rewrite Hit.
  - intros r Hr. by rewrite lookup_alter_ne.
Qed.

(** X8.  On an empty stack no merge check is consulted: the outcome of
    pushing one argument is the same whatever the item variants are, and
    when the call returns the argument's item is the only item of the
    stack.  The call returns when the item has no [env] of its own, and
    when the current record has no own key [hasOwnProperty]. *)
Theorem Push_on_empty_stack
    (checkItem' : loc → loc → Heap → Outcome (CheckResult * Heap))
    fuel m a item h1 :
  stack (stk m) = [] →
  prepare _factory (stk m) a (heap m) = Ok (Some (item, h1)) →
  Push checkItem _factory (S fuel) [a] m =
  Push checkItem' _factory (S fuel) [a] m
  ∧ (item_env h1 item = None →
     ∃ m', Push checkItem _factory (S fuel) [a] m = Ok m')
  ∧ ((∀ c, _env (stk m) = Some c → record h1 c !! "hasOwnProperty" = None) →
     ∃ m', Push checkItem _factory (S fuel) [a] m = Ok m')
  ∧ (∀ m', Push checkItem _factory (S fuel) [a] m = Ok m' →
       stack (stk m') = [item] ∧ Top None m' = Ok (Some item, m')).
Proof.
  intros Hs Hp.
  assert (∀ chk, Push chk _factory (S fuel) [a] m =
                 accept item (mkMachine h1 (stk m))) as HP.
  { intros chk. rewrite Push_cons, Hp, bind_Ok. unfold check_top.
    rewrite Hs, bind_Ok. cbv beta iota zeta.
    by destruct (accept item (mkMachine h1 (stk m))). }
  rewrite !HP. split; [done|]. split; [|split].
  - intros He. rewrite (accept_no_env item (mkMachine h1 (stk m))) by done.
    by eexists.
  - intros Hk. by apply accept_Ok.
  - intros m' Ha. destruct (accept_stack _ _ _ Ha) as [Hs' _].
    simpl in Hs'. rewrite Hs in Hs'. simpl in Hs'.
    split; [done|]. unfold Top. by rewrite Top_of_default, Hs'.
Qed.

(** X9.  [Top(n)] returns an item exactly when [1 <= n <= depth], and
    then it is the item [n - 1] places below the top; for [n <= 0] as for
    [n > depth] the result is absent.  The state is never changed. *)
Theorem Top_nth m n :
  let len := Z.of_nat (length (stack (stk m))) in
  Top (Some n) m =
    Ok ((if decide (1 ≤ n ≤ len)%Z
         then reverse (stack (stk m)) !! Z.to_nat (n - 1)
         else None), m)
  ∧ (∀ t, Top (Some n) m = Ok (Some t, m) → (1 ≤ n ≤ len)%Z).
Proof.
  intros len.
  assert (Top_of (stk m) (Some n) =
          if decide (1 ≤ n ≤ len)%Z
          then reverse (stack (stk m)) !! Z.to_nat (n - 1) else None) as Heq.
  { unfold Top_of. simpl. fold len.
    destruct (Z.ltb_spec len n).
    - rewrite decide_False by lia. done.
    - case_decide.
      + rewrite reverse_lookup by lia. f_equal. lia.
      + apply lookup_ge_None. lia. }
  unfold Top. rewrite Heq. split; [done|].
  intros t [= Ht]. by case_decide.
Qed.


(** X11.  An environment assigned through the [env] setter does not
    survive a push followed by a Pop: on a stack whose top item is [t],
    after [env = e], an accepted push of another item and a Pop, the
    stack is as before and the current environment is the [env] of [t],
    whatever [e] was. *)
Theorem assigned_env_lost_on_round_trip e m t i m1 :
  CheckSound checkItem →
  last (stack (stk m)) = Some t → live (heap m) t → t ≠ i →
  push_accepted checkItem (set_env e m) i = Some m1 →
  get_env (set_env e m) = e
  ∧ ∃ m2, Pop m1 = Ok (i, m2)
      ∧ stack (stk m2) = stack (stk m)
      ∧ get_env m2 = item_env (heap m) t.
Proof.
  intros HS Ht Hl Hne Hacc. split; [done|].
  assert (run_accepted checkItem [i] (set_env e m) = Some m1) as Hrun
    by (simpl; by rewrite Hacc).
  assert (t ∉ [i]) as Hn.
  { intros H. apply elem_of_cons in H as [H|H]; [done|].
    by apply elem_of_nil in H. }
  destruct (run_accepted_stack checkItem _factory [i] _ m1 Hrun) as [Hs _].
  pose proof (run_accepted_env checkItem [i] (set_env e m) m1 t HS Hl Hn Hrun)
    as He.
  destruct (PopN_spec [i] m1 (stack (stk m)) Hs) as (m2 & HP & Hs2 & Hx).
  destruct (Hx t Ht Hn) as [He2 Henv].
  simpl in HP. destruct (Pop m1) as [[r m2']| |] eqn:EP; [|done|done].
  simpl in HP. injection HP as ->.
  pose proof (Pop_inv _ _ _ EP) as Hlast. simpl in Hs.
  rewrite Hs, last_snoc in Hlast. injection Hlast as <-.
  exists m2. split; [done|]. split; [done|].
  unfold get_env. rewrite Henv by done. by rewrite He2, He.
Qed.

(** X12.  The Pop that removes the only item of the stack makes a newly
    allocated empty record the current environment: it is none of the
    records that existed before. *)
Theorem Pop_last_item_fresh_env m t :
  stack (stk m) = [t] →
  ∃ e m', Pop m = Ok (t, m')
    ∧ stack (stk m') = []
    ∧ _env (stk m') = Some e
    ∧ envs (heap m) !! e = None
    ∧ envs (heap m') !! e = Some ∅
    ∧ (∀ c, is_Some (envs (heap m) !! c) → _env (stk m') ≠ Some c).
Proof.
  intros Hs. unfold Pop, array_pop. rewrite Hs.
  change (last [t]) with (Some t). change (removelast [t]) with (@nil loc).
  cbv beta iota zeta. fold (popped_heap (heap m) t).
  destruct (new_record ∅ (popped_heap (heap m) t)) as [e h2] eqn:En.
  apply new_record_items in En as (_ & Hn & He).
  rewrite popped_heap_envs in Hn, He.
  exists e. eexists. split; [reflexivity|]. cbn [stk heap stack _env].
  split; [done|]. split; [done|]. split; [done|].
  split; [by rewrite He, lookup_insert_eq|].
  intros c [x Hx] [= ->]. congruence.
Qed.

(** X13.  The constructor fails exactly when the factory has no 'start'
    builder.  A new Stack holds exactly one item, a new one made by the
    'start' builder; its global record is a new record with the single key
    [isInner]; when an environment is passed it becomes the [env] of that
    item and the current environment; the objects that existed before are
    untouched. *)
Theorem constructor_shape env inner h :
  (start_builder _factory = None →
     constructor _factory env inner h = Throw UnknownItemKind)
  ∧ (is_Some (start_builder _factory) →
     ∃ m, constructor _factory env inner h = Ok m)
  ∧ ∀ m, constructor _factory env inner h = Ok m →
    ∃ start, stack (stk m) = [start]
      ∧ items h !! start = None
      ∧ live (heap m) start
      ∧ envs h !! global (stk m) = None
      ∧ envs (heap m) !! global (stk m) = Some {[ "isInner" := VBool inner ]}
      ∧ (∀ e, env = Some e →
           _env (stk m) = Some e ∧ item_env (heap m) start = Some e)
      ∧ (∀ r, is_Some (items h !! r) → items (heap m) !! r = items h !! r)
      ∧ (∀ l, is_Some (envs h !! l) → envs (heap m) !! l = envs h !! l).
Proof.
  split; [|split].
  { intros Hn. unfold constructor, create. rewrite Hn.
    by destruct (new_record _ h). }
  { intros [build Hb]. eapply constructor_Ok. exact Hb. }
  intros m Hm.
  apply constructor_inv in Hm as (build & g & h1 & start & h2 & _ & Eg & Es & ->).
  apply new_record_items in Eg as (Hi1 & Hn1 & He1).
  apply new_item_spec in Es as (Hfresh & (it & Hit & _) & He2).
  rewrite Hi1 in Hfresh, Hit.
  assert (envs h2 !! g = Some {[ "isInner" := VBool inner ]}) as Hg.
  { rewrite He2; rewrite He1, lookup_insert_eq; [done|by eexists]. }
  assert (∀ l, is_Some (envs h !! l) → envs h2 !! l = envs h !! l) as Hold.
  { intros l [x Hx]. assert (l ≠ g) by congruence.
    rewrite He2; rewrite He1, lookup_insert_ne by done; [done|by eexists]. }
  assert (∀ r, is_Some (items h !! r) → items h2 !! r = items h !! r) as Hio.
  { intros r [x Hx]. rewrite Hit, lookup_insert_ne; [done|congruence]. }
  exists start. simpl. split; [done|]. split; [done|].
  destruct env as [e|]; simpl.
  - split; [apply live_alter; unfold live; rewrite Hit, lookup_insert_eq;
            by eexists|].
    split; [done|]. split; [done|].
    assert (item_env (write_env start (Some e) h2) start = Some e) as Hse.
    { rewrite item_env_write_env, decide_True by done.
      by rewrite Hit, lookup_insert_eq. }
    split; [by intros e' [= <-]|]. split; [|done].
    intros r Hr. rewrite lookup_alter_ne; [by apply Hio|].
    intros <-. destruct Hr as [x Hx]. congruence.
  - split; [unfold live; rewrite Hit, lookup_insert_eq; by eexists|].
    split; [done|]. split; [done|]. split; [done|]. done.
Qed.

(** X14.  The overlay of an accepted push is not undone by Pop: after the
    push of an item with its own record onto a current record without the
    own key [hasOwnProperty], and the Pop that removes the item, the stack
    is as before, but the item's record still holds the keys copied from
    the environment that was current at the push; a closed item no longer
    refers to the record, an open one still does. *)
Theorem overlay_survives_Pop fuel m item h2 ienv own c cur :
  check_top checkItem (stk m) item
    (write_global item (global (stk m)) (heap m)) = Ok (RTrue, h2) →
  item_env h2 item = Some ienv → envs h2 !! ienv = Some own →
  _env (stk m) = Some c → envs h2 !! c = Some cur →
  cur !! "hasOwnProperty" = None →
  ∃ m' m'', Push checkItem _factory (S fuel) [AItem item] m = Ok m'
    ∧ Pop m' = Ok (item, m'')
    ∧ stack (stk m'') = stack (stk m)
    ∧ envs (heap m'') !! ienv = Some (copied cur own ∪ own)
    ∧ (∀ k v, cur !! k = Some v → k ≠ "__proto__" →
         (copied cur own ∪ own) !! k = Some v)
    ∧ item_env (heap m'') item =
        (if item_isOpen h2 item then Some ienv else None).
Proof.
  intros Hc Hi Ho He Hcur Hk.
  assert (record h2 c = cur) as Hrc by (unfold record; by rewrite Hcur).
  assert (record h2 ienv = own) as Hro by (unfold record; by rewrite Ho).
  destruct (accept_Ok item (mkMachine h2 (stk m))) as [m' Hacc].
  { simpl. intros c' Hc'. rewrite He in Hc'. injection Hc' as <-.
    by rewrite Hrc. }
  destruct (accept_own_env item (mkMachine h2 (stk m)) m' ienv Hi Hacc)
    as (Hs & Hen & Hit & Hrec).
  simpl in Hs, Hit, Hrec. rewrite He, Hrc, Hro in Hrec.
  destruct Hrec as [_ Hrec].
  assert (envs (heap m') !! ienv = Some (copied cur own ∪ own)) as Hm
    by (by rewrite Hrec, lookup_insert_eq).
  assert (last (stack (stk m')) = Some item) as Hl by (by rewrite Hs, last_snoc).
  destruct (Pop_ok m' item Hl) as (m'' & HP & Hs'' & _ & Hi'' & He'' & _).
  exists m', m''. split.
  { rewrite Push_cons. simpl. rewrite Hc. simpl. rewrite Hacc. done. }
  split; [done|]. split; [by rewrite Hs'', Hs, removelast_last|].
  split; [rewrite He''; [done|by eexists]|].
  split.
  { intros k v Hkv Hne. apply lookup_union_Some_l. unfold copied.
    case_decide; [by rewrite lookup_delete_ne|done]. }
  unfold item_env, item_isOpen in *. rewrite Hi''. unfold popped_heap, item_isOpen.
  rewrite Hit. destruct (items h2 !! item) as [it|] eqn:Eit; [|done].
  simpl in Hi. destruct (StackItem.isOpen it).
  - by rewrite Hit, Eit.
  - simpl. by rewrite lookup_alter_eq, Hit, Eit.
Qed.

(** X16.  When the merge check of the top item answers a list without any
    non-null element (the empty list in particular), Push pops the top
    item and pushes nothing: the candidate is dropped and the stack is the
    items that were below. *)
Theorem replacement_by_nothing fuel m below T a cand h1 h2 l :
  stack (stk m) = below ++ [T] →
  prepare _factory (stk m) a (heap m) = Ok (Some (cand, h1)) →
  checkItem T cand h1 = Ok (RArray l, h2) →
  non_null l = [] →
  Push checkItem _factory (S (S fuel)) [a] m
    = Ok (after_Pop (mkMachine h2 (stk m)))
  ∧ stack (stk (after_Pop (mkMachine h2 (stk m)))) = below.
Proof.
  intros Hs Hp Hc Hl.
  assert (last (stack (stk m)) = Some T) as HT by (by rewrite Hs, last_snoc).
  destruct (Pop_ok (mkMachine h2 (stk m)) T HT) as (m3 & HP & Hs3 & _).
  assert (after_Pop (mkMachine h2 (stk m)) = m3) as Ha
    by (unfold after_Pop; by rewrite HP).
  rewrite Ha. simpl in Hs3. rewrite Hs, removelast_last in Hs3.
  split; [|done].
  rewrite Push_cons, Hp, bind_Ok, (check_top_last _ _ T) by done.
  rewrite Hc, bind_Ok. cbv beta iota zeta.
  rewrite HP, bind_Ok. cbv beta iota zeta.
  rewrite (Push_all_null fuel l m3 Hl), bind_Ok. by rewrite Push_nil.
Qed.


End Further.

(** *** The sample variants and the further properties *)

Lemma Plain_answers_plainly : answers_plainly Plain.checkItem.
Proof.
  intros t i h. exists h. unfold Plain.checkItem.
  destruct (item_isOpen h i); auto.
Qed.

(** X2, witness: a call with null arguments around the 'open' item, and
    a call with null arguments only. *)
Lemma Push_skips_null_witness :
  Push Sample.checkItem Sample.factory 1
    [ANull; AItem Scenario.i_open; ANull] Scenario.fresh_stack
  = Push Sample.checkItem Sample.factory 1
      [AItem Scenario.i_open] Scenario.fresh_stack
  ∧ Push Sample.checkItem Sample.factory 1 [ANull; ANull] Scenario.fresh_stack
    = Ok Scenario.fresh_stack.
Proof.
  destruct (Push_skips_null Sample.checkItem Sample.factory 1
              [ANull; AItem Scenario.i_open; ANull] Scenario.fresh_stack)
    as [H1 _].
  destruct (Push_skips_null Sample.checkItem Sample.factory 0
              [ANull; ANull] Scenario.fresh_stack) as [_ H2].
  split; [exact H1|]. apply H2. reflexivity.
Defined.

(** X5, witness: with the plain variants, four arguments of which one is
    null and one is closed. *)
Lemma Push_plain_total_witness :
  ∃ m', Push Plain.checkItem Sample.factory 1
          [AItem Scenario.i_open; AItem Scenario.i_close; ANull;
           AItem Scenario.i_over] Scenario.fresh_stack = Ok m'
    ∧ stack (stk Scenario.fresh_stack) `prefix_of` stack (stk m').
Proof.
  destruct (Push_plain_total Plain.checkItem Sample.factory 0
              [AItem Scenario.i_open; AItem Scenario.i_close; ANull;
               AItem Scenario.i_over] Scenario.fresh_stack
              Plain_answers_plainly) as [(m' & HP & Hpre & _)|[H|H]].
  - exists m'. split; [exact HP|exact Hpre].
  - vm_compute in H. discriminate H.
  - vm_compute in H. discriminate H.
Defined.

(** X6, witness: on the stack [open], the 'open' item answers the 'close'
    item with one 'mml' item, which takes its place. *)
Lemma replacement_item_takes_the_place_witness :
  Push Sample.checkItem Sample.factory 2 [AItem Scenario.i_close]
    Cases.only_open
  = Ok (Scenario.push 2 [AItem Scenario.i_close] Cases.only_open)
  ∧ stack (stk (Scenario.push 2 [AItem Scenario.i_close] Cases.only_open))
    = [] ++ [Cases.i_mml].
Proof.
  destruct (replacement_item_takes_the_place Sample.checkItem Sample.factory 0
              Cases.only_open [] Scenario.i_open
              (AItem Scenario.i_close) Scenario.i_close
              Cases.close_prepared Cases.close_answer Cases.i_mml
              (Scenario.push 2 [AItem Scenario.i_close] Cases.only_open))
    as (HP & Hs & _); try (vm_compute; reflexivity).
  split; [exact HP|exact Hs].
Defined.

(** X7, witness: the 'begin' item, which has no [env], pushed on the new
    Stack. *)
Lemma Push_inherits_env_witness :
  ∃ m', Push Sample.checkItem Sample.factory 1 [AItem Scenario.i_begin]
          Scenario.fresh_stack = Ok m'
    ∧ _env (stk m') = _env (stk Scenario.fresh_stack)
    ∧ item_env (heap m') Scenario.i_begin = _env (stk Scenario.fresh_stack).
Proof.
  destruct (Push_inherits_env Sample.checkItem Sample.factory 0
              Scenario.fresh_stack (AItem Scenario.i_begin) Scenario.i_begin
              Cases.begin_prepared Cases.begin_prepared)
    as (m' & HP & _ & He & Hi & _); try (vm_compute; reflexivity).
  { vm_compute. eexists. reflexivity. }
  exists m'. split; [exact HP|]. split; [exact He|exact Hi].
Defined.

(** X8, witness: the 'open' item pushed on the emptied Stack, with the
    sample variants and with the plain ones. *)
Lemma Push_on_empty_stack_witness :
  Push Sample.checkItem Sample.factory 1 [AItem Scenario.i_open]
    Scenario.emptied
  = Push Plain.checkItem Sample.factory 1 [AItem Scenario.i_open]
      Scenario.emptied
  ∧ ∃ m', Push Sample.checkItem Sample.factory 1 [AItem Scenario.i_open]
            Scenario.emptied = Ok m'
      ∧ stack (stk m') = [Scenario.i_open].
Proof.
  destruct (Push_on_empty_stack Sample.checkItem Sample.factory
              Plain.checkItem 0 Scenario.emptied (AItem Scenario.i_open)
              Scenario.i_open
              (write_global Scenario.i_open (global (stk Scenario.emptied))
                 (heap Scenario.emptied)))
    as (Heq & _ & Hret & Hall); [vm_compute; reflexivity ..|].
  split; [exact Heq|].
  destruct Hret as [m' HP].
  { intros c Hc. vm_compute in Hc. injection Hc as <-.
    vm_compute. reflexivity. }
  exists m'. split; [exact HP|]. exact (proj1 (Hall m' HP)).
Defined.

(** X9, witness: [Top(2)] on [start, open, over] is the 'open' item. *)
Lemma Top_nth_witness :
  Top (Some 2%Z) Scenario.in_fraction
  = Ok (Some Scenario.i_open, Scenario.in_fraction)
  ∧ (1 ≤ 2 ≤ Z.of_nat (length (stack (stk Scenario.in_fraction))))%Z.
Proof.
  destruct (Top_nth Scenario.in_fraction 2%Z) as [H1 H2].
  assert (Top (Some 2%Z) Scenario.in_fraction
          = Ok (Some Scenario.i_open, Scenario.in_fraction)) as Ht
    by (rewrite H1; vm_compute; reflexivity).
  split; [exact Ht|]. exact (H2 _ Ht).
Defined.


(** X11, witness: on the new Stack, [env] is assigned the record of the
    'leaf' item; after the push of the 'begin' item and a Pop the current
    environment is the record of the 'start' item again. *)
Lemma assigned_env_lost_on_round_trip_witness :
  get_env Cases.env_assigned = Some 2%positive
  ∧ ∃ m2, Pop (Scenario.accepted Cases.env_assigned Scenario.i_begin)
          = Ok (Scenario.i_begin, m2)
      ∧ get_env m2 = Some 4%positive.
Proof.
  destruct (assigned_env_lost_on_round_trip Sample.checkItem Sample.factory
              (Some 2%positive) Scenario.fresh_stack Scenario.i_start
              Scenario.i_begin
              (Scenario.accepted Cases.env_assigned Scenario.i_begin)
              Sample_checkItem_sound)
    as (Hg & m2 & HP & _ & He); try (vm_compute; reflexivity).
  { vm_compute. eexists. reflexivity. }
  { discriminate. }
  split; [exact Hg|]. exists m2. split; [exact HP|].
  rewrite He. vm_compute. reflexivity.
Defined.

(** X12, witness: Pop on the new Stack. *)
Lemma Pop_last_item_fresh_env_witness :
  ∃ e m', Pop Scenario.fresh_stack = Ok (Scenario.i_start, m')
    ∧ _env (stk m') = Some e
    ∧ _env (stk m') ≠ _env (stk Scenario.fresh_stack).
Proof.
  destruct (Pop_last_item_fresh_env Scenario.fresh_stack Scenario.i_start)
    as (e & m' & HP & _ & He & _ & _ & Hnew); [vm_compute; reflexivity|].
  exists e, m'. split; [exact HP|]. split; [exact He|].
  apply (Hnew 4%positive). vm_compute. eexists. reflexivity.
Defined.

(** X13, witness: a Stack constructed on the parts with the record of the
    'leaf' item as its environment. *)
Lemma constructor_shape_witness :
  ∃ m start,
    constructor Sample.factory (Some 2%positive) true Scenario.parts = Ok m
    ∧ stack (stk m) = [start]
    ∧ _env (stk m) = Some 2%positive.
Proof.
  destruct (constructor_shape Sample.factory (Some 2%positive) true
              Scenario.parts) as (_ & Hret & Hall).
  destruct Hret as [m Hm]; [vm_compute; eexists; reflexivity|].
  destruct (Hall m Hm) as (start & Hs & _ & _ & _ & _ & He & _).
  exists m, start. split; [exact Hm|]. split; [exact Hs|].
  apply (He 2%positive). reflexivity.
Defined.

(** X14, witness: the Stack constructed on [{a: 0, b: 2}], the push of
    the open item with its own record [{a: 1}], and a Pop. *)
Lemma overlay_survives_Pop_witness :
  ∃ m' m'', Push Sample.checkItem Sample.factory 1
              [AItem Scenario.own_a.1] Scenario.before_push = Ok m'
    ∧ Pop m' = Ok (Scenario.own_a.1, m'')
    ∧ envs (heap m'') !! 4%positive
      = Some (copied {[ "a" := VNum 0; "b" := VNum 2 ]} {[ "a" := VNum 1 ]}
              ∪ {[ "a" := VNum 1 ]}).
Proof.
  destruct (overlay_survives_Pop Sample.checkItem Sample.factory 0
              Scenario.before_push Scenario.own_a.1
              (write_global Scenario.own_a.1
                 (global (stk Scenario.before_push))
                 (heap Scenario.before_push))
              4%positive {[ "a" := VNum 1 ]}
              1%positive {[ "a" := VNum 0; "b" := VNum 2 ]})
    as (m' & m'' & HP & HPop & _ & Hrec & _); try (vm_compute; reflexivity).
  exists m', m''. split; [exact HP|]. split; [exact HPop|exact Hrec].
Defined.

(** X16, witness: with the closing variants, the 'close' item pushed on
    [start, open, over] removes the 'over' item and is dropped. *)
Lemma replacement_by_nothing_witness :
  Push Closing.checkItem Sample.factory 2 [AItem Scenario.i_close]
    Scenario.in_fraction
  = Ok (after_Pop
          (mkMachine
             (write_global Scenario.i_close
                (global (stk Scenario.in_fraction))
                (heap Scenario.in_fraction))
             (stk Scenario.in_fraction)))
  ∧ stack (stk (after_Pop
                  (mkMachine
                     (write_global Scenario.i_close
                        (global (stk Scenario.in_fraction))
                        (heap Scenario.in_fraction))
                     (stk Scenario.in_fraction))))
    = [Scenario.i_start; Scenario.i_open].
Proof.
  apply (replacement_by_nothing Closing.checkItem Sample.factory 0
           Scenario.in_fraction [Scenario.i_start; Scenario.i_open]
           Scenario.i_over (AItem Scenario.i_close) Scenario.i_close
           (write_global Scenario.i_close
              (global (stk Scenario.in_fraction))
              (heap Scenario.in_fraction))
           (write_global Scenario.i_close
              (global (stk Scenario.in_fraction))
              (heap Scenario.in_fraction))
           []); vm_compute; reflexivity.
Defined.

